(** * Client-gatherer: the Shopify store finder of [client_gatherer.py]

    A shallow embedding of [GoogleShopifyFinder] and the properties of
    its search driver, page verifier and batch orchestrator.

    Conventions of the embedding.
    - A Python [str] is a [string] over 8-bit characters, read as the
      code points U+0000..U+00FF; [str.lower], [str.strip] and the
      [re.I] flag are written out for this range.
    - A Python [int] is a [Z]; [len] is [Z.of_nat (length _)].
    - The two [set]s of the program are [gset string].
    - The outside world (the aiohttp session, the Google API client,
      the html parser of BeautifulSoup and the clock) is a parameter of
      the section holding the methods.
    - An exception raised inside the [try] of [verify_store] ends in
      [return None]; there the option monad is the error monad. *)

From Stdlib Require Import ZArith Ascii.
From stdpp Require Import base option list gmap strings.

Local Open Scope Z_scope.
Set Default Proof Using "Type".

(** ** Python strings *)

Module Str.

Definition code (c : ascii) : N := Ascii.N_of_ascii c.

Definition in_range (lo hi : N) (c : ascii) : bool :=
  ((lo <=? code c) && (code c <=? hi))%N.

Definition is_upper (c : ascii) : bool := in_range 65 90 c.
Definition is_lower (c : ascii) : bool := in_range 97 122 c.
Definition is_alpha (c : ascii) : bool := is_upper c || is_lower c.
Definition is_digit (c : ascii) : bool := in_range 48 57 c.

(** [str.lower] on one character: A-Z, and the capital letters of
    the Latin-1 supplement (U+00C0..U+00DE without the sign U+00D7). *)
Definition lower_char (c : ascii) : ascii :=
  if is_upper c
     || (in_range 192 222 c && negb (code c =? 215)%N)
  then Ascii.ascii_of_N (code c + 32)
  else c.

Fixpoint lower (s : string) : string :=
  match s with
  | EmptyString => EmptyString
  | String c s' => String (lower_char c) (lower s')
  end.

(** [str.isspace] for one character. *)
Definition is_space (c : ascii) : bool :=
  in_range 9 13 c || in_range 28 32 c
  || (code c =? 133)%N || (code c =? 160)%N.

Fixpoint lstrip (s : string) : string :=
  match s with
  | String c s' => if is_space c then lstrip s' else s
  | EmptyString => EmptyString
  end.

(** [rstrip] keeps a character when it is not a space or when
    something is kept after it. *)
Fixpoint rstrip (s : string) : string :=
  match s with
  | EmptyString => EmptyString
  | String c s' =>
      match rstrip s' with
      | EmptyString => if is_space c then EmptyString else String c EmptyString
      | t => String c t
      end
  end.

Definition strip (s : string) : string := rstrip (lstrip s).

Fixpoint startswith (p s : string) : bool :=
  match p, s with
  | EmptyString, _ => true
  | String a p', String b s' => if decide (a = b) then startswith p' s' else false
  | String _ _, EmptyString => false
  end.

(** [s.replace(old, new)] for a non-empty [old]: the occurrences are
    taken from the left and do not overlap.  [skip] counts the
    characters of an occurrence that are still to be dropped. *)
Fixpoint replace_from (old new : string) (skip : nat) (s : string) : string :=
  match skip with
  | S k =>
      match s with
      | String _ s' => replace_from old new k s'
      | EmptyString => EmptyString
      end
  | O =>
      match s with
      | EmptyString => EmptyString
      | String c s' =>
          if startswith old s
          then new +:+ replace_from old new (Nat.pred (String.length old)) s'
          else String c (replace_from old new 0 s')
      end
  end.

Definition replace (s old new : string) : string :=
  match old with
  | EmptyString => s
  | _ => replace_from old new 0 s
  end.

(** [s.split(sep)[0]] for a one-character separator. *)
Fixpoint split_head (sep : ascii) (s : string) : string :=
  match s with
  | EmptyString => EmptyString
  | String c s' => if decide (c = sep) then EmptyString else String c (split_head sep s')
  end.

Fixpoint take (n : nat) (s : string) : string :=
  match n, s with
  | S n', String c s' => String c (take n' s')
  | _, _ => EmptyString
  end.

Definition is_empty (s : string) : bool :=
  match s with EmptyString => true | _ => false end.



End Str.

(** ** The fragment of [re] the program uses

    Every pattern of the program is a sequence of single-character
    atoms, each taken once or greedily [n] or more times.  [match_here]
    is the backtracking matcher of [re] on this fragment: a greedy atom
    first takes as many characters as it can and gives them back one by
    one until the rest of the pattern matches. *)

Module Re.

Inductive atom :=
| One (p : ascii -> bool)
| AtLeast (n : nat) (p : ascii -> bool).

Definition regex := list atom.

(** A greedy atom, [count] characters of it already taken, followed
    by the rest [k] of the pattern: one more character is taken where
    that is possible, and the rest is tried here only when the longer
    attempts have failed. *)
Fixpoint repeat_here (n : nat) (p : ascii -> bool) (k : string -> option nat)
    (count : nat) (s : string) : option nat :=
  let stop := if (n <=? count)%nat then k s else None in
  match s with
  | String c s' =>
      if p c
      then match repeat_here n p k (S count) s' with
           | Some m => Some (S m)
           | None => stop
           end
      else stop
  | EmptyString => stop
  end.

(** Length of the match of [r] at the start of the text, if any. *)
Fixpoint match_here (r : regex) : string -> option nat :=
  match r with
  | [] => fun _ => Some O
  | One p :: r' =>
      fun s =>
        match s with
        | String c s' => if p c then S <$> match_here r' s' else None
        | EmptyString => None
        end
  | AtLeast n p :: r' => repeat_here n p (match_here r') O
  end.

(** [pattern.match(s)]: a match at the start of [s]. *)
Definition matches (r : regex) (s : string) : bool :=
  bool_decide (is_Some (match_here r s)).

(** [re.search(pattern, s)]: a match at some position of [s]. *)
Fixpoint search (r : regex) (s : string) : bool :=
  match match_here r s with
  | Some _ => true
  | None =>
      match s with
      | String _ s' => search r s'
      | EmptyString => false
      end
  end.

(** [pattern.findall(s)]: the matches from left to right, the scan
    resuming where the previous match ended. *)
Fixpoint findall_from (r : regex) (skip : nat) (s : string) : list string :=
  match skip with
  | S k =>
      match s with
      | String _ s' => findall_from r k s'
      | EmptyString => []
      end
  | O =>
      match match_here r s with
      | Some n =>
          Str.take n s ::
          match s with
          | String _ s' => findall_from r (Nat.pred n) s'
          | EmptyString => []
          end
      | None =>
          match s with
          | String _ s' => findall_from r O s'
          | EmptyString => []
          end
      end
  end.

Definition findall (r : regex) (s : string) : list string :=
  findall_from r O s.

(** A literal character under [re.I]: a letter matches both of its
    cases, any other character matches itself only. *)
Definition lit_I (c : ascii) : atom :=
  if Str.is_alpha c
  then One (fun t => bool_decide (Str.lower_char t = Str.lower_char c))
  else One (fun t => bool_decide (t = c)).

Fixpoint literal_I (s : string) : regex :=
  match s with
  | EmptyString => []
  | String c s' => lit_I c :: literal_I s'
  end.

Definition lit (c : ascii) : atom := One (fun t => bool_decide (t = c)).

Fixpoint literal (s : string) : regex :=
  match s with
  | EmptyString => []
  | String c s' => lit c :: literal s'
  end.

(** The texts a pattern stands for: what [match_here] looks for,
    without the order in which it tries. *)
Fixpoint all_of (p : ascii -> bool) (w : string) : bool :=
  match w with
  | EmptyString => true
  | String c w' => p c && all_of p w'
  end.

Inductive lang : regex -> string -> Prop :=
| lang_nil : lang [] EmptyString
| lang_one p r c w :
    p c = true -> lang r w -> lang (One p :: r) (String c w)
| lang_rep n p r v w :
    all_of p v = true -> (n <= String.length v)%nat -> lang r w ->
    lang (AtLeast n p :: r) (v +:+ w).

(** [w] occurs in [s]. *)
Definition occurs_in (w s : string) : Prop :=
  ∃ pre post, s = pre +:+ w +:+ post.

End Re.

(** ** Data model *)

(** One dictionary of [results['items']]: the value under ['link'], if
    the key is there, and the rest of the entry. *)
Record item := Item {
  link : option string;
  item_title : string;
  snippet : string
}.

(** The dictionary [store_info] built by [verify_store]. *)
Record store_info := StoreInfo {
  url : string;
  title : string;
  description : string;
  emails : list string;
  verified : bool;
  discovery_date : string
}.

(** The fields of [GoogleShopifyFinder] that the methods read or write. *)
Record finder := Finder {
  api_key : string;
  cse_id : string;
  store_limit : Z;
  max_checks : Z;
  found_stores : list store_info;
  stores_count : Z;
  checked_count : Z
}.

(** [GoogleShopifyFinder.__init__] *)
Definition init (key cse : string) (limit checks : Z) : finder :=
  {| api_key := key; cse_id := cse; store_limit := limit; max_checks := checks;
     found_stores := []; stores_count := 0; checked_count := 0 |}.

Definition set_checked_count (n : Z) (f : finder) : finder :=
  {| api_key := api_key f; cse_id := cse_id f; store_limit := store_limit f;
     max_checks := max_checks f; found_stores := found_stores f;
     stores_count := stores_count f; checked_count := n |}.

Definition set_max_checks (n : Z) (f : finder) : finder :=
  {| api_key := api_key f; cse_id := cse_id f; store_limit := store_limit f;
     max_checks := n; found_stores := found_stores f;
     stores_count := stores_count f; checked_count := checked_count f |}.

Definition set_found_stores (l : list store_info) (f : finder) : finder :=
  {| api_key := api_key f; cse_id := cse_id f; store_limit := store_limit f;
     max_checks := max_checks f; found_stores := l;
     stores_count := stores_count f; checked_count := checked_count f |}.

(** What the program reads off the tree built by
    [BeautifulSoup(html, 'html.parser')].
    - [soup_title]: [soup.title], and inside it [soup.title.string]
      ([None] when the element does not hold exactly one string);
    - [soup_meta_description]: the first [meta] element whose [name] is
      [description], and inside it its [content] attribute if it has one;
    - [soup_a_hrefs]: the [href] of every [a] element that has one, in
      document order. *)
Record soup := Soup {
  soup_title : option (option string);
  soup_meta_description : option (option string);
  soup_a_hrefs : list string
}.

(** What [session.get] gives: a response with its status and its body
    ([None] when reading the body raises, which is taken to be another
    exception than [ClientSSLError]), or an exception: a failed TLS
    handshake, or any other one (time-out, connection error). *)
Inductive response :=
| Status (code : Z) (text : option string)
| ClientSSLError
| ClientError.

(** What [service.cse().list(...).execute()] gives: the dictionary of
    results, with or without the key ['items'], or an exception. *)
Inductive api_result :=
| Results (items : option (list item))
| HttpError
| OtherError.

(** The dictionary built by [generate_report]. *)
Record report := Report {
  total_stores_found : Z;
  total_urls_checked : Z;
  report_store_limit : Z;
  max_checks_limit : Z;
  store_limit_reached : bool;
  max_checks_reached : bool;
  scan_date : string;
  stores : list store_info
}.

(** A call either returns or raises. *)
Inductive outcome (A : Type) :=
| Return (a : A)
| Raise (exn : string).
Arguments Return {A} a.
Arguments Raise {A} exn.

(** Python's [l[:n]]. *)
Definition slice_to {A} (l : list A) (n : Z) : list A :=
  if 0 <=? n then take (Z.to_nat n) l
  else take (Z.to_nat (Z.of_nat (length l) + n)) l.

(** Python's [range(start, stop, step)] for a positive step. *)
Fixpoint range_from (fuel : nat) (start stop step : nat) : list nat :=
  match fuel with
  | O => []
  | S fuel' =>
      if (start <? stop)%nat
      then start :: range_from fuel' (start + step) stop step
      else []
  end.

Definition range (start stop step : nat) : list nat :=
  range_from stop start stop step.

(** ** Patterns *)

(** [[a-zA-Z0-9._%+-]+@[a-zA-Z0-9.-]+\.[a-zA-Z]{2,}] *)
Definition email_local (c : ascii) : bool :=
  Str.is_alpha c || Str.is_digit c
  || bool_decide (c = "."%char) || bool_decide (c = "_"%char)
  || bool_decide (c = "%"%char) || bool_decide (c = "+"%char)
  || bool_decide (c = "-"%char).

Definition email_domain (c : ascii) : bool :=
  Str.is_alpha c || Str.is_digit c
  || bool_decide (c = "."%char) || bool_decide (c = "-"%char).

Definition email_pattern : Re.regex :=
  [ Re.AtLeast 1 email_local; Re.lit "@"; Re.AtLeast 1 email_domain;
    Re.lit "."; Re.AtLeast 2 Str.is_alpha ].

(** [re.compile(r'mailto:')] *)
Definition mailto_pattern : Re.regex := Re.literal "mailto:".

(** The list [shopify_patterns], each escaped dot written as the dot it
    stands for; the patterns are compiled with [re.I]. *)
Definition shopify_patterns : list string :=
  [ "cdn.shopify.com";
    "shopify.com/checkout";
    "Shopify.theme";
    "shopify-payment-button";
    "powered by shopify";
    "_shopify_" ].

Definition search_queries : list string :=
  [ "site:.no " +:+ String "034" ("Powered by Shopify" +:+ String "034" EmptyString);
    "site:.no inurl:products shopify.com";
    "site:.no inurl:collections cdn.shopify.com";
    "site:.no " +:+ String "034" ("Shopify online store" +:+ String "034" EmptyString);
    "site:.no nettbutikk shopify";
    "site:.no vipps shopify";
    "site:.no klarna shopify" ].

(** ** [find_emails] *)

(** [link['href'].replace('mailto:', '').split('?')[0].strip()] *)
Definition mailto_email (href : string) : string :=
  Str.strip (Str.split_head "?" (Str.replace href "mailto:" EmptyString)).

(** The set [emails] after the loop over the mailto links. *)
Definition mailto_emails (s : soup) : gset string :=
  foldl (fun (acc : gset string) href =>
           let email := mailto_email href in
           if Re.matches email_pattern email
           then acc ∪ {[ Str.lower email ]}
           else acc)
        ∅
        (filter (fun href => Re.search mailto_pattern href) (soup_a_hrefs s)).

(** The set [emails] at the end of [find_emails]. *)
Definition email_set (s : soup) (html : string) : gset string :=
  mailto_emails s ∪ list_to_set (Str.lower <$> Re.findall email_pattern html).

Definition find_emails (s : soup) (html : string) : list string :=
  elements (email_set s html).

(** ** Events of a run, in the order they happen *)
Inductive event :=
| Verifying (url : string)              (* [verify_store] entered *)
| Get (url : string)                    (* [session.get] *)
| CseList (query : string) (start : Z). (* [service.cse().list(...).execute()] *)

(** The urls handed to [verify_store] in a trace. *)
Definition verified_urls (evs : list event) : list string :=
  omap (fun e => match e with Verifying u => Some u | _ => None end) evs.

Section Methods.

(** [session.get(url, ...)]: the answer to the [n]-th request of one
    verification. *)
Variable session_get : nat -> string -> response.
(** [BeautifulSoup(html, 'html.parser')]; [None] when it raises. *)
Variable BeautifulSoup : string -> option soup.
(** [self.service.cse().list(q=, cx=, start=).execute()] *)
Variable cse_list : string -> string -> Z -> api_result.
(** [time.strftime('%Y-%m-%d')] *)
Variable strftime : string.

(** *** [verify_store] *)

Definition http_url_of (u : string) : string :=
  Str.replace u "https://" "http://".

(** The body of a response, as the three places that read one do:
    [if status != 200: return None], else [await response.text()]. *)
Definition body_if_200 (r : response) : option string :=
  match r with
  | Status code text => if code =? 200 then text else None
  | ClientSSLError | ClientError => None
  end.

(** The handler [except aiohttp.ClientSSLError]: one request to the
    http url, as the [n]-th request.  An exception raised here leaves
    through [except Exception]. *)
Definition ssl_fallback (n : nat) (u : string) : option string * list event :=
  let http_url := http_url_of u in
  (body_if_200 (session_get n http_url), [Get http_url]).

(** The inner [try] of [verify_store]: the html of the page, or
    [None] where the method returns [None]. *)
Definition fetch_html (u : string) : option string * list event :=
  match session_get 0 u with
  | Status code text =>
      if negb (code =? 200) then
        if (code =? 403) || (code =? 401) then
          let http_url := http_url_of u in
          match session_get 1 http_url with
          | Status code' text' =>
              (if negb (code' =? 200) then None else text',
               [Get u; Get http_url])
          | ClientSSLError =>
              let '(html, evs) := ssl_fallback 2 u in
              (html, [Get u; Get http_url] ++ evs)
          | ClientError => (None, [Get u; Get http_url])
          end
        else (None, [Get u])
      else (text, [Get u])
  | ClientSSLError =>
      let '(html, evs) := ssl_fallback 1 u in
      (html, Get u :: evs)
  | ClientError => (None, [Get u])
  end.

Definition is_shopify (html : string) : bool :=
  existsb (fun pattern => Re.search (Re.literal_I pattern) html) shopify_patterns.

(** The part of [verify_store] after the fingerprint test; [None]
    is an exception, caught by [except Exception]. *)
Definition extract_store_info (u html : string) : option store_info :=
  s ← BeautifulSoup html;
  title ← match soup_title s with
          | Some t => Str.strip <$> t      (* [None.strip()] raises *)
          | None => Some "Unknown"
          end;
  description ← match soup_meta_description s with
                | Some d => d              (* a missing ['content'] raises *)
                | None => Some "No description"
                end;
  Some {| url := u; title := title; description := description;
          emails := find_emails s html; verified := true;
          discovery_date := strftime |}.

Definition classify (u html : string) : option store_info :=
  if negb (is_shopify html) then None else extract_store_info u html.

Definition verify_store (f : finder) (u : string)
  : option store_info * finder * list event :=
  let f := set_checked_count (checked_count f + 1) f in
  let '(html, evs) := fetch_html u in
  (html ≫= classify u, f, Verifying u :: evs).

(** *** [verify_stores] *)

(** [asyncio.gather] with [return_exceptions=True]: every task of
    the chunk is run, and the results come in the order of the
    tasks.  Each task counts itself in [checked_count] before its
    first suspension, and has a session of its own. *)
Fixpoint gather (f : finder) (chunk : list string)
  : list (option store_info) * finder * list event :=
  match chunk with
  | [] => ([], f, [])
  | u :: chunk' =>
      let '(r, f1, e1) := verify_store f u in
      let '(rs, f2, e2) := gather f1 chunk' in
      (r :: rs, f2, e1 ++ e2)
  end.

Definition chunk_size : nat := 5.

(** The loop [for i in range(0, len(urls), chunk_size)], over the
    values of [i] that are left. *)
Fixpoint verify_loop (idxs : list nat) (urls : list string) (f : finder)
    (verified_stores : list store_info) (evs : list event)
  : list store_info * finder * list event :=
  match idxs with
  | [] => (verified_stores, f, evs)
  | i :: idxs' =>
      let chunk := take chunk_size (drop i urls) in
      let '(results, f, e) := gather f chunk in
      let chunk_stores := omap id results in
      let verified_stores := verified_stores ++ chunk_stores in
      if Z.of_nat (length verified_stores) >=? store_limit f
      then (slice_to verified_stores (store_limit f), f, evs ++ e)
      else verify_loop idxs' urls f verified_stores (evs ++ e)
  end.

Definition verify_stores (f : finder) (search_results : list item)
  : outcome (list store_info) * finder * list event :=
  match search_results with
  | [] => (Return [], f, [])
  | _ =>
      match mapM link search_results with
      | None => (Raise "KeyError", f, [])
      | Some urls =>
          let '(l, f, evs) :=
            verify_loop (range 0 (length urls) chunk_size) urls f [] [] in
          (Return l, f, evs)
      end
  end.

(** *** [search_norwegian_shopify] *)

(** The loop [for item in results['items']]. *)
Definition add_item (acc : gset string * list item) (it : item)
  : gset string * list item :=
  match link it with
  | Some u =>
      if negb (Str.is_empty u) && bool_decide (u ∉ acc.1)
      then ({[ u ]} ∪ acc.1, acc.2 ++ [it])
      else acc
  | None => acc
  end.

(** The loop [while start_index < 100]; [fuel] bounds the number of
    turns. *)
Fixpoint page_loop (fuel : nat) (f : finder) (query : string) (start_index : Z)
    (acc : gset string * list item) (evs : list event)
  : gset string * list item * list event :=
  match fuel with
  | O => (acc, evs)
  | S fuel' =>
      if start_index <? 100 then
        if stores_count f >=? store_limit f then (acc, evs)
        else
          let evs := evs ++ [CseList query start_index] in
          match cse_list query (cse_id f) start_index with
          | Results None => (acc, evs)
          | Results (Some items) =>
              let acc := foldl add_item acc items in
              if Z.of_nat (length items) <? 10 then (acc, evs)
              else page_loop fuel' f query (start_index + 10) acc evs
          | HttpError => (acc, evs)
          | OtherError => (acc, evs)
          end
      else (acc, evs)
  end.

(** The loop [for query in search_queries]. *)
Fixpoint query_loop (f : finder) (queries : list string)
    (acc : gset string * list item) (evs : list event)
  : gset string * list item * list event :=
  match queries with
  | [] => (acc, evs)
  | query :: queries' =>
      if stores_count f >=? store_limit f then (acc, evs)
      else
        let '(acc, evs) := page_loop 100 f query 1 acc evs in
        query_loop f queries' acc evs
  end.

Definition search_norwegian_shopify (f : finder)
  : outcome (list store_info) * finder * list event :=
  let '(_, all_results, evs) := query_loop f search_queries (∅, []) [] in
  let '(r, f, evs') := verify_stores f all_results in
  (r, f, evs ++ evs').

(** *** [generate_report] *)
Definition generate_report (f : finder) : report :=
  {| total_stores_found := Z.of_nat (length (found_stores f));
     total_urls_checked := checked_count f;
     report_store_limit := store_limit f;
     max_checks_limit := max_checks f;
     store_limit_reached := Z.of_nat (length (found_stores f)) >=? store_limit f;
     max_checks_reached := checked_count f >=? max_checks f;
     scan_date := strftime;
     stores := found_stores f |}.

(** *** Notions the properties are stated with *)

(** A response that holds a full page: the key ['items'] is there
    and its list has ten entries or more. *)
Definition is_full_page (r : api_result) : bool :=
  match r with
  | Results (Some items) => bool_decide (10 <= Z.of_nat (length items))
  | _ => false
  end.

(** [n] requests of one query, the first one at [start] and each
    next one ten further. *)
Fixpoint page_requests (query : string) (n : nat) (start : Z) : list event :=
  match n with
  | O => []
  | S n' => CseList query start :: page_requests query n' (start + 10)
  end.

(** The items the API returned, over the requests of a trace, in the
    order they came. *)
Definition returned_items (f : finder) (evs : list event) : list item :=
  evs ≫= (fun e =>
            match e with
            | CseList query start =>
                match cse_list query (cse_id f) start with
                | Results (Some items) => items
                | _ => []
                end
            | _ => []
            end).

(** What the search keeps of a stream of returned items: [seen] holds
    the links of the kept items, no link is kept twice, every kept
    item is the first one of the stream with its link, and every
    non-empty link of the stream is kept. *)
Definition first_seen (acc : gset string * list item) (stream : list item) : Prop :=
  (∀ u, u ∈ acc.1 ↔ ∃ it, it ∈ acc.2 ∧ link it = Some u)
  ∧ NoDup (link <$> acc.2)
  ∧ (∀ it, it ∈ acc.2 ->
       ∃ u, link it = Some u ∧ u ≠ EmptyString
            ∧ ∃ pre post, stream = pre ++ it :: post
                          ∧ ∀ it', it' ∈ pre -> link it' ≠ Some u)
  ∧ (∀ it u, it ∈ stream -> link it = Some u -> u ≠ EmptyString -> u ∈ acc.1).

(** The fetcher as the specification words it: one request, and one
    more to the http url after a 401, a 403 or a failed handshake. *)
Definition fetch_spec (u : string) : option string * list event :=
  let http_url := http_url_of u in
  match session_get 0 u with
  | Status code text =>
      if code =? 200 then (text, [Get u])
      else if (code =? 401) || (code =? 403)
           then (body_if_200 (session_get 1 http_url), [Get u; Get http_url])
           else (None, [Get u])
  | ClientSSLError => (body_if_200 (session_get 1 http_url), [Get u; Get http_url])
  | ClientError => (None, [Get u])
  end.

(** *** Documents of the scenarios *)

Definition dquote : string := String "034" EmptyString.

(** [<a href="mailto:Test@Example.com?subject=hi">mail</a> contact sales@x.no] *)
Definition mail_body : string :=
  "<a href=" +:+ dquote +:+ "mailto:Test@Example.com?subject=hi" +:+ dquote
  +:+ ">mail</a> contact sales@x.no".

(** Its tree: no title, no meta element, one anchor. *)
Definition mail_soup : soup :=
  {| soup_title := None; soup_meta_description := None;
     soup_a_hrefs := ["mailto:Test@Example.com?subject=hi"] |}.

(** [<html><!-- cdn.shopify.com --></html>], whose tree has no
    element below [html]. *)
Definition cdn_body : string := "<html><!-- cdn.shopify.com --></html>".

Definition empty_soup : soup :=
  {| soup_title := None; soup_meta_description := None; soup_a_hrefs := [] |}.

(** A page with a fingerprint and an empty title element: the tree
    has the element, and the element has no string. *)
Definition empty_title_body : string :=
  "<html><head><title></title></head><body><!-- cdn.shopify.com --></body></html>".

Definition empty_title_soup : soup :=
  {| soup_title := Some None; soup_meta_description := None; soup_a_hrefs := [] |}.

(** A page with a fingerprint and a description element that has no
    [content] attribute. *)
Definition bare_meta_body : string :=
  "<html><head><meta name=description></head><body><!-- cdn.shopify.com --></body></html>".

Definition bare_meta_soup : soup :=
  {| soup_title := None; soup_meta_description := Some None; soup_a_hrefs := [] |}.

(** The parser on the documents above. *)
Definition parse_scenario (html : string) : option soup :=
  if decide (html = cdn_body) then Some empty_soup
  else if decide (html = mail_body) then Some mail_soup
  else if decide (html = empty_title_body) then Some empty_title_soup
  else if decide (html = bare_meta_body) then Some bare_meta_soup
  else None.

(** Sites of the scenarios, as functions of the rank of the request in
    one verification and of its url: one that answers every request
    with the page [cdn_body]; one that refuses https and serves the
    page over http; one that refuses https, fails the handshake on the
    first http request and serves the page on the second one. *)
Definition site_ok (n : nat) (u : string) : response :=
  Status 200 (Some cdn_body).

Definition site_403_then_ok (n : nat) (u : string) : response :=
  match n with
  | O => Status 403 None
  | _ => Status 200 (Some cdn_body)
  end.

Definition site_403_then_tls (n : nat) (u : string) : response :=
  match n with
  | O => Status 403 None
  | 1%nat => ClientSSLError
  | _ => Status 200 (Some cdn_body)
  end.

(** A site that answers 403 over https and whose http address
    redirects to a host with a bad certificate: the session follows
    the redirect and the request ends in a [ClientSSLError]. *)
Definition site_403_bad_redirect (n : nat) (u : string) : response :=
  if Str.startswith "https://" u then Status 403 None else ClientSSLError.

(** Two sites that serve the pages with the empty title and with the
    description without content. *)
Definition site_empty_title (n : nat) (u : string) : response :=
  Status 200 (Some empty_title_body).

Definition site_bare_meta (n : nat) (u : string) : response :=
  Status 200 (Some bare_meta_body).

(** A search API that has one page of seven items for every query. *)
Definition seven_items : list item :=
  (fun n => {| link := Some ("https://shop" +:+ n +:+ ".no/");
               item_title := "shop " +:+ n; snippet := EmptyString |})
  <$> ["1"; "2"; "3"; "4"; "5"; "6"; "7"].

Definition cse_seven (query cx : string) (start : Z) : api_result :=
  Results (Some seven_items).

Definition today : string := "2026-11-04".

Definition five_results : list item :=
  take 5 seven_items.

Definition finder_1 : finder := init "key" "cx" 1 1000.
Definition finder_0 : finder := init "key" "cx" 0 1000.
Definition finder_100 : finder := init "key" "cx" 100 1000.

(** *** [export_results] and [main] *)

(** What a run hands to the writers: the rows given to
    [DataFrame.to_csv] and the dictionary given to [json.dump], each
    with the name of its file. *)
Inductive output :=
| ToCsv (filename : string) (rows : list store_info)
| JsonDump (filename : string) (r : report).

Definition export_results (f : finder) (filename : string) : list output :=
  match found_stores f with
  | [] => []
  | _ => [ToCsv filename (found_stores f)]
  end.

(** [main], once the finder is built: the search, the assignment
    [finder.found_stores = stores], and the two writers when [stores]
    is not empty.  An exception of the search is raised again. *)
Definition main (API_KEY CSE_ID : string)
  : outcome (list store_info) * finder * list output * list event :=
  let finder := init API_KEY CSE_ID 100 1000 in
  let '(r, finder, evs) := search_norwegian_shopify finder in
  match r with
  | Raise e => (Raise e, finder, [], evs)
  | Return stores =>
      let finder := set_found_stores stores finder in
      let outs :=
        match stores with
        | [] => []
        | _ => export_results finder "norwegian_shopify_stores.csv"
               ++ [JsonDump "shopify_report.json" (generate_report finder)]
        end in
      (Return stores, finder, outs, evs)
  end.

(** The urls asked with [session.get], and the requests sent to the
    search API, in a trace. *)
Definition requested_urls (evs : list event) : list string :=
  omap (fun e => match e with Get u => Some u | _ => None end) evs.

Definition api_requests (evs : list event) : list (string * Z) :=
  omap (fun e => match e with CseList q start => Some (q, start) | _ => None end) evs.

(** [c] is a character of [s]. *)
Fixpoint has_char (c : ascii) (s : string) : bool :=
  match s with
  | EmptyString => false
  | String x s' => bool_decide (x = c) || has_char c s'
  end.

(** The search API keeps to its page size: no response holds more than
    ten items. *)
Definition pages_of_ten : Prop :=
  ∀ query cx start items,
    cse_list query cx start = Results (Some items) -> (length items <= 10)%nat.

(** * Properties *)

(** ** Strings and patterns *)

Lemma append_nil_l (b : string) : EmptyString +:+ b = b.
Proof. reflexivity. Qed.

Lemma append_cons x (a b : string) : String x a +:+ b = String x (a +:+ b).
Proof. reflexivity. Qed.

Ltac str_simpl := rewrite ?append_cons, ?append_nil_l; simpl.

Lemma append_assoc (a b c : string) : (a +:+ b) +:+ c = a +:+ b +:+ c.
Proof. induction a as [|x a IH]; [done|]. rewrite !append_cons. by rewrite IH. Qed.

Lemma length_append (a b : string) :
  String.length (a +:+ b) = (String.length a + String.length b)%nat.
Proof. induction a as [|x a IH]; [done|]. str_simpl. by rewrite IH. Qed.

Lemma repeat_here_sound n p k count s m :
  Re.repeat_here n p k count s = Some m ->
  ∃ v rest m', s = v +:+ rest ∧ Re.all_of p v = true
               ∧ (n <= count + String.length v)%nat
               ∧ k rest = Some m' ∧ m = (String.length v + m')%nat.
Proof.
  revert count m. induction s as [|c s IH]; intros count m; simpl.
  - destruct (Nat.leb_spec n count); [|done]. intros Hk.
    exists EmptyString, EmptyString, m. simpl. repeat split; try done. lia.
  - assert (Hstop : (if (n <=? count)%nat then k (String c s) else None) = Some m ->
      ∃ v rest m', String c s = v +:+ rest ∧ Re.all_of p v = true
                   ∧ (n <= count + String.length v)%nat
                   ∧ k rest = Some m' ∧ m = (String.length v + m')%nat).
    { destruct (Nat.leb_spec n count); [|done]. intros Hk.
      exists EmptyString, (String c s), m. simpl. repeat split; try done. lia. }
    destruct (p c) eqn:Hp; [|done].
    destruct (Re.repeat_here n p k (S count) s) as [m1|] eqn:Hrec; [|done].
    intros [= <-].
    destruct (IH _ _ Hrec) as (v & rest & m' & -> & Hall & Hn & Hk & ->).
    exists (String c v), rest, m'. simpl. rewrite Hp, Hall.
    repeat split; try done. lia.
Qed.

Lemma repeat_here_complete n p k count v rest :
  Re.all_of p v = true -> (n <= count + String.length v)%nat ->
  is_Some (k rest) ->
  is_Some (Re.repeat_here n p k count (v +:+ rest)).
Proof.
  revert count. induction v as [|c v IH]; intros count Hall Hn Hk; str_simpl; simpl in *.
  - assert (is_Some (if (n <=? count)%nat then k rest else None)) as Hstop.
    { destruct (Nat.leb_spec n count); [done|lia]. }
    destruct rest as [|c s]; simpl; [done|].
    destruct (p c); [|done].
    by destruct (Re.repeat_here n p k (S count) s).
  - apply andb_true_iff in Hall as [-> Hall].
    destruct (IH (S count) Hall) as [m ->]; [lia|done|]. eauto.
Qed.

Lemma match_here_sound r s m :
  Re.match_here r s = Some m ->
  ∃ w rest, s = w +:+ rest ∧ String.length w = m ∧ Re.lang r w.
Proof.
  revert s m. induction r as [|[p|n p] r IH]; intros s m; simpl.
  - intros [= <-]. exists EmptyString, s. repeat split. constructor.
  - destruct s as [|c s]; [done|]. destruct (p c) eqn:Hp; [|done].
    destruct (Re.match_here r s) as [m1|] eqn:Hm; [|done].
    intros [= <-]. destruct (IH _ _ Hm) as (w & rest & -> & <- & Hl).
    exists (String c w), rest. repeat split. by constructor.
  - intros (v & rest & m' & -> & Hall & Hn & Hk & ->)%repeat_here_sound.
    destruct (IH _ _ Hk) as (w & rest' & -> & <- & Hl).
    exists (v +:+ w), rest'. split; [|split].
    + by rewrite append_assoc.
    + by rewrite length_append.
    + constructor; [done|lia|done].
Qed.

Lemma match_here_complete r w rest :
  Re.lang r w -> is_Some (Re.match_here r (w +:+ rest)).
Proof.
  intros H. revert rest. induction H as [|p r c w Hp _ IH|n p r v w Hall Hn _ IH];
    intros rest; str_simpl.
  - done.
  - rewrite Hp. destruct (IH rest) as [m ->]. by eexists.
  - rewrite append_assoc. apply repeat_here_complete; [done|lia|apply IH].
Qed.

(** [re.search] finds a pattern exactly in the texts in which one of
    its texts occurs. *)
Lemma search_spec r s :
  Re.search r s = true ↔ ∃ w, Re.lang r w ∧ Re.occurs_in w s.
Proof.
  split.
  - induction s as [|c s IH]; simpl.
    + destruct (Re.match_here r EmptyString) as [m|] eqn:Hm; [|done]. intros _.
      destruct (match_here_sound _ _ _ Hm) as (w & rest & Hs & _ & Hl).
      exists w. split; [done|]. by exists EmptyString, rest.
    + destruct (Re.match_here r (String c s)) as [m|] eqn:Hm.
      * intros _. destruct (match_here_sound _ _ _ Hm) as (w & rest & Hs & _ & Hl).
        exists w. split; [done|]. by exists EmptyString, rest.
      * intros (w & Hl & pre & post & ->)%IH. exists w. split; [done|].
        by exists (String c pre), post.
  - intros (w & Hl & pre & post & ->).
    induction pre as [|c pre IH]; str_simpl.
    + destruct (match_here_complete r w post Hl) as [m Hm].
      destruct (w +:+ post); simpl in *; by rewrite Hm.
    + rewrite IH. by destruct (Re.match_here r _).
Qed.






(** ** Email extraction *)



(** Two spellings of one address give one entry. *)
Example find_emails_mixed_case :
  find_emails empty_soup "Sales@X.no, SALES@x.NO and sales@x.no" = ["sales@x.no"].
Proof. by vm_compute. Qed.

(** ** The fetcher and the classifier *)

(** A page with no fingerprint is rejected, whatever else it holds;
    a page with one goes on to the extraction. *)
Lemma classify_by_fingerprint u html :
  (is_shopify html = false -> classify u html = None)
  ∧ (is_shopify html = true -> classify u html = extract_store_info u html).
Proof. unfold classify. split; intros ->; done. Qed.



(** The extraction gives a record exactly when the tree is built, the
    title element, if any, holds a string, and the description
    element, if any, has a content; the missing elements are
    replaced by the fallback values. *)
Lemma extract_store_info_Some u html s :
  BeautifulSoup html = Some s ->
  soup_title s ≠ Some None ->
  soup_meta_description s ≠ Some None ->
  extract_store_info u html
  = Some {| url := u;
            title := default "Unknown" (Str.strip <$> mjoin (soup_title s));
            description := default "No description" (mjoin (soup_meta_description s));
            emails := find_emails s html;
            verified := true;
            discovery_date := strftime |}.
Proof.
  intros Hs Ht Hd. unfold extract_store_info. rewrite Hs. simpl.
  destruct (soup_title s) as [[t|]|], (soup_meta_description s) as [[d|]|];
    simpl; congruence.
Qed.

(** C2. Passing the fingerprint test is not enough for a result: a
    page that is served with status 200 and holds a fingerprint, but
    whose title element has no string, gives [None]. *)
Theorem fingerprint_page_without_result f u html s :
  session_get 0 u = Status 200 (Some html) ->
  is_shopify html = true ->
  BeautifulSoup html = Some s ->
  soup_title s = Some None ->
  (verify_store f u).1.1 = None.
Proof.
  intros Hget Hshop Hs Ht.
  unfold verify_store, fetch_html. rewrite Hget. simpl.
  unfold classify. rewrite Hshop. simpl.
  unfold extract_store_info. rewrite Hs. simpl. by rewrite Ht.
Qed.

(** C9. The fallback values stand in for a title or a description
    element that is missing; they do not stand in for an element that
    is there without its string or without its [content].  A page
    whose tree has such an element gives no record, with or without a
    fingerprint. *)
Theorem incomplete_elements_give_no_record u html s :
  BeautifulSoup html = Some s ->
  soup_title s = Some None ∨ soup_meta_description s = Some None ->
  extract_store_info u html = None ∧ classify u html = None.
Proof.
  intros Hs Hbad.
  assert (extract_store_info u html = None) as Hnone.
  { unfold extract_store_info. rewrite Hs. simpl.
    destruct Hbad as [-> | ->]; simpl; [done|].
    by destruct (soup_title s) as [[t|]|]. }
  split; [done|]. unfold classify. by destruct (is_shopify html).
Qed.

(** C3, as the code has it.  After a 401 or a 403 the fetcher sends one
    request to the url with [https://] replaced by [http://]; when
    that request gives a response or fails otherwise than on a TLS
    handshake, it is the only retry, and its body is taken only from a
    200.  After a failed handshake, on the first request or on that
    retry, one request is sent to the http url and its body is taken
    only from a 200.  After any other status than 200 nothing more is
    sent.  Where no body is obtained the verification returns [None]
    rather than raising.  A 403 followed by a 200 with the page
    [cdn_body] gives the record with the title [Unknown] and the
    description [No description]. *)
Theorem fetch_retries u :
  (∀ code text r, session_get 0 u = Status code text ->
        code = 401 ∨ code = 403 ->
        session_get 1 (http_url_of u) = r -> r ≠ ClientSSLError ->
        fetch_html u = (body_if_200 r, [Get u; Get (http_url_of u)])
        ∧ fetch_html u = fetch_spec u)
  ∧ (∀ code text, session_get 0 u = Status code text ->
        code = 401 ∨ code = 403 ->
        session_get 1 (http_url_of u) = ClientSSLError ->
        fetch_html u
        = (body_if_200 (session_get 2 (http_url_of u)),
           [Get u; Get (http_url_of u); Get (http_url_of u)]))
  ∧ (∀ r, session_get 0 u = ClientSSLError ->
        session_get 1 (http_url_of u) = r ->
        fetch_html u = (body_if_200 r, [Get u; Get (http_url_of u)])
        ∧ fetch_html u = fetch_spec u)
  ∧ (∀ code text, session_get 0 u = Status code text ->
        code ≠ 200 -> code ≠ 401 -> code ≠ 403 ->
        fetch_html u = (None, [Get u]) ∧ fetch_html u = fetch_spec u)
  ∧ (∀ f evs, fetch_html u = (None, evs) ->
        (verify_store f u).1.1 = None)
  ∧ (∀ f code text, session_get 0 u = Status code text ->
        code = 401 ∨ code = 403 ->
        session_get 1 (http_url_of u) = Status 200 (Some cdn_body) ->
        BeautifulSoup cdn_body = Some empty_soup ->
        (verify_store f u).1.1
        = Some {| url := u; title := "Unknown"; description := "No description";
                  emails := []; verified := true; discovery_date := strftime |}).
Proof.
  assert (Hdenied : ∀ code text r, session_get 0 u = Status code text ->
        code = 401 ∨ code = 403 ->
        session_get 1 (http_url_of u) = r -> r ≠ ClientSSLError ->
        fetch_html u = (body_if_200 r, [Get u; Get (http_url_of u)])).
  { intros code text r H0 Hcode H1 Hr.
    unfold fetch_html. rewrite H0, H1.
    destruct Hcode as [-> | ->]; simpl;
      destruct r as [c t| |]; simpl; try done; by destruct (c =? 200). }
  split.
  { intros code text r H0 Hcode H1 Hr. split; [by eapply Hdenied|].
    rewrite (Hdenied _ _ _ H0 Hcode H1 Hr). unfold fetch_spec. rewrite H0, H1.
    by destruct Hcode as [-> | ->]. }
  split.
  { intros code text H0 Hcode H1. unfold fetch_html, ssl_fallback.
    rewrite H0, H1. by destruct Hcode as [-> | ->]. }
  split.
  { intros r H0 H1. unfold fetch_html, fetch_spec, ssl_fallback.
    by rewrite H0, H1. }
  split.
  { intros code text H0 ???. unfold fetch_html, fetch_spec. rewrite H0.
    destruct (Z.eqb_spec code 200); [done|].
    destruct (Z.eqb_spec code 403); [done|].
    destruct (Z.eqb_spec code 401); done. }
  split.
  { intros f evs Hf. unfold verify_store. by rewrite Hf. }
  intros f code text H0 Hcode H1 Hsoup.
  unfold verify_store. rewrite (Hdenied code text _ H0 Hcode H1) by done. simpl.
  unfold classify. assert (is_shopify cdn_body = true) as -> by (by vm_compute).
  simpl. unfold extract_store_info. rewrite Hsoup. simpl.
  do 2 f_equal.
Qed.

(** ** The batch verification *)

(** [verify_store] writes [checked_count] and nothing else, and what
    it returns does not depend on the finder. *)
Lemma verify_store_state f u :
  (verify_store f u).1.2 = set_checked_count (checked_count f + 1) f.
Proof. unfold verify_store. by destruct (fetch_html _). Qed.

Lemma verify_store_result f g u :
  (verify_store f u).1.1 = (verify_store g u).1.1
  ∧ (verify_store f u).2 = (verify_store g u).2.
Proof. unfold verify_store. by destruct (fetch_html _). Qed.

Lemma verify_store_verified f u :
  verified_urls (verify_store f u).2 = [u].
Proof.
  unfold verify_store, fetch_html, ssl_fallback.
  repeat (case_match; simplify_eq/=); done.
Qed.

Lemma gather_state f chunk :
  (gather f chunk).1.2
  = set_checked_count (checked_count f + Z.of_nat (length chunk)) f.
Proof.
  revert f. induction chunk as [|u chunk IH]; intros f; simpl.
  - destruct f; unfold set_checked_count; simpl; f_equal; lia.
  - pose proof (verify_store_state f u) as Hs.
    destruct (verify_store f u) as [[r f1] e1]; simpl in Hs; subst f1.
    specialize (IH (set_checked_count (checked_count f + 1) f)).
    destruct (gather _ chunk) as [[rs f2] e2]; simpl in *; subst f2.
    unfold set_checked_count; simpl; f_equal; lia.
Qed.

Lemma gather_store_limit f chunk :
  store_limit (gather f chunk).1.2 = store_limit f.
Proof. by rewrite gather_state. Qed.

Lemma gather_verified f chunk :
  verified_urls (gather f chunk).2 = chunk.
Proof.
  revert f. induction chunk as [|u chunk IH]; intros f; simpl; [done|].
  pose proof (verify_store_verified f u) as Hv.
  destruct (verify_store f u) as [[r f1] e1]; simpl in Hv.
  specialize (IH f1). destruct (gather f1 chunk) as [[rs f2] e2]; simpl in *.
  unfold verified_urls in *. by rewrite omap_app, Hv, IH.
Qed.

Lemma slice_to_length {A} (l : list A) (n : Z) :
  0 <= n <= Z.of_nat (length l) -> Z.of_nat (length (slice_to l n)) = n.
Proof.
  intros [H0 Hn]. unfold slice_to.
  destruct (Z.leb_spec 0 n); [|lia].
  rewrite length_take. lia.
Qed.

(** The loop keeps fewer than [store_limit] records while it runs,
    and cuts the list when it leaves early. *)
Lemma verify_loop_bound idxs urls f acc evs :
  0 < store_limit f ->
  Z.of_nat (length acc) < store_limit f ->
  Z.of_nat (length (verify_loop idxs urls f acc evs).1.1) <= store_limit f.
Proof.
  revert f acc evs. induction idxs as [|i idxs IH]; intros f acc evs Hpos Hacc; simpl.
  - lia.
  - pose proof (gather_store_limit f (take chunk_size (drop i urls))) as Hl.
    destruct (gather f _) as [[results f1] e]; simpl in Hl.
    rewrite Hl.
    destruct (Z.geb_spec (Z.of_nat (length (acc ++ omap id results))) (store_limit f)) as [Hge|Hlt].
    + simpl. rewrite slice_to_length; lia.
    + rewrite <- Hl. apply IH; lia.
Qed.


(** C10. Called with no search result, [verify_stores] returns the
    empty list at once: the finder, and with it [checked_count], is
    the one it was given, and the trace holds no verification and no
    request. *)
Theorem verify_stores_empty f :
  verify_stores f [] = (Return [], f, []).
Proof. reflexivity. Qed.


Lemma verified_urls_app evs evs' :
  verified_urls (evs ++ evs') = verified_urls evs ++ verified_urls evs'.
Proof. apply omap_app. Qed.

Lemma range_from_fuel fuel1 fuel2 start stop step :
  (0 < step)%nat -> (stop - start <= fuel1)%nat -> (stop - start <= fuel2)%nat ->
  range_from fuel1 start stop step = range_from fuel2 start stop step.
Proof.
  intros Hstep. revert fuel2 start.
  induction fuel1 as [|fuel1 IH]; intros [|fuel2] start H1 H2; simpl; try done.
  - destruct (Nat.ltb_spec start stop); [lia|done].
  - destruct (Nat.ltb_spec start stop); [lia|done].
  - destruct (Nat.ltb_spec start stop); [|done]. f_equal. apply IH; lia.
Qed.

(** The batches go through the whole list unless a batch reaches
    [store_limit]; every url of a batch is counted. *)
Lemma verify_loop_run fuel i urls f acc evs :
  (length urls - i <= fuel)%nat ->
  ∃ k : nat,
    let '(l, f', evs') :=
      verify_loop (range_from fuel i (length urls) chunk_size) urls f acc evs in
    verified_urls evs' = verified_urls evs ++ take k (drop i urls)
    ∧ f' = set_checked_count
             (checked_count f + Z.of_nat (length (take k (drop i urls)))) f
    ∧ (take k (drop i urls) = drop i urls
       ∨ ∃ verified_stores, store_limit f <= Z.of_nat (length verified_stores)
                            ∧ l = slice_to verified_stores (store_limit f)).
Proof.
  revert i f acc evs. induction fuel as [|fuel IH]; intros i f acc evs Hfuel; simpl.
  { exists O. rewrite take_0, app_nil_r. split; [done|]. split.
    - destruct f; unfold set_checked_count; simpl; f_equal; lia.
    - left. by rewrite drop_ge by lia. }
  destruct (Nat.ltb_spec i (length urls)) as [Hlt|Hge]; simpl; cycle 1.
  { exists O. rewrite take_0, app_nil_r. split; [done|]. split.
    - destruct f; unfold set_checked_count; simpl; f_equal; lia.
    - left. by rewrite drop_ge by lia. }
  pose proof (gather_verified f (take chunk_size (drop i urls))) as Hg.
  pose proof (gather_state f (take chunk_size (drop i urls))) as Hs.
  destruct (gather f _) as [[results f1] e]; simpl in Hg, Hs. subst f1.
  change (store_limit (set_checked_count _ f)) with (store_limit f).
  destruct (Z.geb_spec (Z.of_nat (length (acc ++ omap id results))) (store_limit f))
    as [Hreach|Hnot].
  - exists chunk_size. rewrite verified_urls_app, Hg. split; [done|]. split; [done|].
    right. by exists (acc ++ omap id results).
  - destruct (IH (i + chunk_size)%nat
                (set_checked_count
                   (checked_count f
                    + Z.of_nat (length (take chunk_size (drop i urls)))) f)
                (acc ++ omap id results) (evs ++ e)) as [k Hk].
    { unfold chunk_size. lia. }
    exists (chunk_size + k)%nat.
    destruct (verify_loop _ urls _ _ _) as [[l f'] evs'].
    destruct Hk as (Hv & Hf & Hend).
    assert (take (chunk_size + k) (drop i urls)
            = take chunk_size (drop i urls) ++ take k (drop (i + chunk_size) urls)) as Hsplit.
    { by rewrite <- take_take_drop, drop_drop. }
    split; [|split].
    + rewrite Hv, verified_urls_app, Hg, <- app_assoc. by rewrite Hsplit.
    + rewrite Hf, Hsplit, length_app.
      destruct f; unfold set_checked_count; simpl; f_equal; lia.
    + destruct Hend as [Hall|Hearly]; [left|by right].
      rewrite Hsplit, Hall, <- drop_drop. apply take_drop.
Qed.

Lemma verify_stores_run f search_results urls :
  mapM link search_results = Some urls ->
  let '(r, f', evs) := verify_stores f search_results in
  f' = set_checked_count
         (checked_count f + Z.of_nat (length (verified_urls evs))) f
  ∧ (verified_urls evs = urls
     ∨ ∃ verified_stores, store_limit f <= Z.of_nat (length verified_stores)
                          ∧ r = Return (slice_to verified_stores (store_limit f))).
Proof.
  intros Hurls. unfold verify_stores.
  destruct search_results as [|it rest].
  { simpl in Hurls. injection Hurls as <-. split; [|by left].
    destruct f; unfold set_checked_count; simpl; f_equal; lia. }
  rewrite Hurls. unfold range.
  destruct (verify_loop_run (length urls) 0 urls f [] []) as [k Hk]; [lia|].
  destruct (verify_loop _ urls f [] []) as [[l f'] evs].
  destruct Hk as (Hv & Hf & Hend). simpl in Hv. rewrite Hv. split; [done|].
  destruct Hend as [Hall|(vs & Hvs & ->)]; [by left|right; by exists vs].
Qed.

Lemma verify_stores_verified f search_results urls :
  mapM link search_results = Some urls ->
  verified_urls (verify_stores f search_results).2 `prefix_of` urls.
Proof.
  intros Hurls. unfold verify_stores.
  destruct search_results as [|it rest]; [apply prefix_nil|].
  rewrite Hurls. unfold range.
  destruct (verify_loop_run (length urls) 0 urls f [] []) as [k Hk]; [lia|].
  destruct (verify_loop _ urls f [] []) as [[l f'] evs].
  destruct Hk as (Hv & _). simpl in *. rewrite Hv.
  exists (drop k urls). by rewrite take_drop.
Qed.

(** ** The search *)

Lemma page_requests_lookup query n start k :
  (k < n)%nat ->
  page_requests query n start !! k = Some (CseList query (start + 10 * Z.of_nat k)).
Proof.
  revert start k. induction n as [|n IH]; intros start k Hk; [lia|].
  destruct k as [|k]; simpl.
  - do 2 f_equal. lia.
  - rewrite IH by lia. do 2 f_equal. lia.
Qed.

(** The requests of one query. *)
Lemma page_loop_requests fuel f query start_index acc evs :
  ∃ n : nat,
    (page_loop fuel f query start_index acc evs).2
    = evs ++ page_requests query n start_index
    ∧ (n <= fuel)%nat
    ∧ (∀ k : nat, (k < n)%nat -> start_index + 10 * Z.of_nat k < 100)
    ∧ (∀ k : nat, (k < n)%nat -> stores_count f < store_limit f)
    ∧ (∀ k : nat, (S k < n)%nat ->
         is_full_page (cse_list query (cse_id f) (start_index + 10 * Z.of_nat k)))
    ∧ (∀ k : nat, (k < n)%nat -> (S k < fuel)%nat ->
         start_index + 10 * Z.of_nat (S k) < 100 ->
         is_full_page (cse_list query (cse_id f) (start_index + 10 * Z.of_nat k)) ->
         (S k < n)%nat)
    ∧ ((0 < fuel)%nat -> start_index < 100 ->
       stores_count f < store_limit f -> (0 < n)%nat).
Proof.
  clear session_get BeautifulSoup strftime.
  revert start_index acc evs.
  induction fuel as [|fuel IH]; intros start_index acc evs.
  { exists O. simpl. rewrite app_nil_r. repeat split; intros; lia. }
  simpl.
  destruct (Z.ltb_spec start_index 100) as [Hlt|Hge]; cycle 1.
  { exists O. simpl. rewrite app_nil_r. repeat split; intros; lia. }
  destruct (Z.geb_spec (stores_count f) (store_limit f)) as [Hlim|Hlim].
  { exists O. simpl. rewrite app_nil_r. repeat split; intros; lia. }
  assert (Hone : ¬ is_full_page (cse_list query (cse_id f) start_index) ->
    ∃ n : nat, evs ++ [CseList query start_index] = evs ++ page_requests query n start_index
    ∧ (n <= S fuel)%nat
    ∧ (∀ k : nat, (k < n)%nat -> start_index + 10 * Z.of_nat k < 100)
    ∧ (∀ k : nat, (k < n)%nat -> stores_count f < store_limit f)
    ∧ (∀ k : nat, (S k < n)%nat ->
         is_full_page (cse_list query (cse_id f) (start_index + 10 * Z.of_nat k)))
    ∧ (∀ k : nat, (k < n)%nat -> (S k < S fuel)%nat ->
         start_index + 10 * Z.of_nat (S k) < 100 ->
         is_full_page (cse_list query (cse_id f) (start_index + 10 * Z.of_nat k)) ->
         (S k < n)%nat)
    ∧ ((0 < S fuel)%nat -> start_index < 100 ->
       stores_count f < store_limit f -> (0 < n)%nat)).
  { intros Hnf. exists 1%nat. simpl. repeat split; intros; try lia.
    assert (k = O) as -> by lia. exfalso. apply Hnf.
    by replace start_index with (start_index + 10 * Z.of_nat 0) by lia. }
  destruct (cse_list query (cse_id f) start_index) as [[items|]| |] eqn:Hresp;
    try (apply Hone; simpl; tauto).
  destruct (Z.ltb_spec (Z.of_nat (length items)) 10) as [Hshort|Hfull].
  { apply Hone. simpl. rewrite bool_decide_eq_false_2; [tauto|lia]. }
  clear Hone.
  destruct (IH (start_index + 10) (foldl add_item acc items)
              (evs ++ [CseList query start_index]))
    as (n & Hev & Hn & Hsub & Hcnt & Hprev & Hnext & Hfirst).
  exists (S n). rewrite Hev, <- app_assoc. simpl.
  split; [done|]. split; [lia|].
  split. { intros [|k] Hk; [lia|]. specialize (Hsub k). lia. }
  split. { intros; lia. }
  split.
  { intros [|k] Hk.
    - replace (start_index + 10 * Z.of_nat 0) with start_index by lia.
      rewrite Hresp. simpl. apply bool_decide_pack. lia.
    - replace (start_index + 10 * Z.of_nat (S k))
        with (start_index + 10 + 10 * Z.of_nat k) by lia.
      apply Hprev. lia. }
  split.
  { intros [|k] Hk Hfuel Hlt' Hfp.
    - assert (0 < n)%nat; [|lia]. apply Hfirst; lia.
    - assert (S k < n)%nat; [|lia]. apply Hnext; try lia.
      replace (start_index + 10 + 10 * Z.of_nat k)
        with (start_index + 10 * Z.of_nat (S k)) by lia. done. }
  intros; lia.
Qed.

Lemma page_loop_fuel fuel1 fuel2 f query start_index acc evs :
  (Z.to_nat (100 - start_index) <= fuel1)%nat ->
  (Z.to_nat (100 - start_index) <= fuel2)%nat ->
  page_loop fuel1 f query start_index acc evs
  = page_loop fuel2 f query start_index acc evs.
Proof.
  revert fuel2 start_index acc evs.
  induction fuel1 as [|fuel1 IH]; intros [|fuel2] start_index acc evs H1 H2; simpl;
    try done.
  - destruct (Z.ltb_spec start_index 100); [lia|done].
  - destruct (Z.ltb_spec start_index 100); [lia|done].
  - destruct (Z.ltb_spec start_index 100); [|done].
    destruct (_ >=? _); [done|].
    destruct (cse_list _ _ _) as [[items|]| |]; try done.
    destruct (_ <? 10); [done|]. apply IH; lia.
Qed.

(** C8. The requests of a query are sent at the indices 1, 11, 21,
    ... and there are at most ten of them.  A request is followed by
    another one only when its response held a full page, and then it
    is, as long as the next index is below 100.  So a response with
    fewer than ten items, or with no ['items'], is the last one of
    its query. *)
Theorem pagination f query acc evs :
  ∃ n : nat,
    (page_loop 100 f query 1 acc evs).2 = evs ++ page_requests query n 1
    ∧ (n <= 10)%nat
    ∧ (∀ k : nat, (k < n)%nat ->
         page_requests query n 1 !! k = Some (CseList query (1 + 10 * Z.of_nat k)))
    ∧ (∀ k : nat, (S k < n)%nat ->
         is_full_page (cse_list query (cse_id f) (1 + 10 * Z.of_nat k)))
    ∧ (∀ k : nat, (k < n)%nat ->
         1 + 10 * Z.of_nat (S k) < 100 ->
         is_full_page (cse_list query (cse_id f) (1 + 10 * Z.of_nat k)) ->
         (S k < n)%nat)
    ∧ (∀ k : nat, (k < n)%nat ->
         ¬ is_full_page (cse_list query (cse_id f) (1 + 10 * Z.of_nat k)) ->
         n = S k)
    ∧ (stores_count f < store_limit f -> (0 < n)%nat).
Proof.
  destruct (page_loop_requests 100 f query 1 acc evs)
    as (n & Hev & Hn & Hsub & Hcnt & Hprev & Hnext & Hfirst).
  exists n. split; [done|].
  assert (n <= 10)%nat as Hten.
  { destruct n as [|n]; [lia|]. specialize (Hsub n). lia. }
  split; [done|].
  split. { intros k Hk. by apply page_requests_lookup. }
  split; [done|].
  split. { intros k Hk Hlt Hfp. apply Hnext; try done. lia. }
  split.
  { intros k Hk Hnf. destruct (decide (n = S k)) as [|Hne]; [done|].
    exfalso. apply Hnf, Hprev. lia. }
  intros Hlim. apply Hfirst; lia.
Qed.

(** C5. Both loops of the search compare [stores_count] with
    [store_limit] before they go on: once the counter has reached the
    limit, the loop over the queries starts no further query and the
    loop over the pages sends no further request, wherever they
    stand; a search started in that state sends no request and
    verifies nothing. *)
Theorem search_stops_at_store_limit f :
  store_limit f <= stores_count f ->
  (∀ queries acc evs, query_loop f queries acc evs = (acc, evs))
  ∧ (∀ fuel query start_index acc evs,
        page_loop fuel f query start_index acc evs = (acc, evs))
  ∧ search_norwegian_shopify f = (Return [], f, []).
Proof.
  intros Hlim.
  assert (Hq : ∀ queries acc evs, query_loop f queries acc evs = (acc, evs)).
  { intros [|q queries] acc evs; simpl; [done|].
    destruct (Z.geb_spec (stores_count f) (store_limit f)); [done|lia]. }
  split; [done|]. split.
  - intros [|fuel] query start_index acc evs; simpl; [done|].
    destruct (start_index <? 100); [|done].
    destruct (Z.geb_spec (stores_count f) (store_limit f)); [done|lia].
  - unfold search_norwegian_shopify. by rewrite Hq.
Qed.

(** ** Deduplication *)

Lemma is_empty_spec u : Str.is_empty u = true ↔ u = EmptyString.
Proof. destruct u; simpl; split; congruence. Qed.

Lemma add_item_first_seen acc stream it :
  first_seen acc stream -> first_seen (add_item acc it) (stream ++ [it]).
Proof.
  destruct acc as [seen all]. intros (Hseen & Hnd & Hfirst & Hall).
  assert (Hold : ∀ it0, it0 ∈ all ->
    ∃ u, link it0 = Some u ∧ u ≠ EmptyString
         ∧ ∃ pre post, stream ++ [it] = pre ++ it0 :: post
                       ∧ ∀ it', it' ∈ pre -> link it' ≠ Some u).
  { intros it0 Hin. destruct (Hfirst it0 Hin) as (u & Hu & Hne & pre & post & -> & Hpre).
    exists u. do 2 (split; [done|]). exists pre, (post ++ [it]).
    split; [|done]. by rewrite <- app_assoc. }
  unfold add_item. simpl in *.
  destruct (link it) as [u|] eqn:Hlink; cycle 1.
  { repeat split; try done; try apply Hseen.
    intros it0 u0 [Hin| ->%list_elem_of_singleton]%elem_of_app Hl Hne; [eauto|congruence]. }
  destruct (Str.is_empty u) eqn:Hemp; simpl.
  { apply is_empty_spec in Hemp as ->.
    repeat split; try done; try apply Hseen.
    intros it0 u0 [Hin| ->%list_elem_of_singleton]%elem_of_app Hl Hne; [eauto|congruence]. }
  destruct (decide (u ∉ seen)) as [Hnew|Hdup].
  - rewrite bool_decide_eq_true_2 by done. simpl.
    assert (Hnone : ∀ it', it' ∈ all -> link it' ≠ Some u).
    { intros it' Hin Hl. apply Hnew, Hseen. eauto. }
    unfold first_seen; simpl. repeat split.
    + intros [->%elem_of_singleton|(it0 & Hin & Hl)%Hseen]%elem_of_union.
      * exists it. split; [|done]. apply elem_of_app. right. by apply list_elem_of_singleton.
      * exists it0. split; [|done]. apply elem_of_app. by left.
    + intros (it0 & [Hin| ->%list_elem_of_singleton]%elem_of_app & Hl).
      * apply elem_of_union. right. apply Hseen. eauto.
      * apply elem_of_union. left. apply elem_of_singleton. congruence.
    + rewrite fmap_app. apply NoDup_app. split; [done|]. split.
      * intros o (it0 & -> & Hin)%list_elem_of_fmap Hin'.
        apply list_elem_of_singleton in Hin'. simpl in Hin'.
        apply (Hnone it0 Hin). congruence.
      * simpl. apply NoDup_singleton.
    + intros it0 [Hin| ->%list_elem_of_singleton]%elem_of_app; [by apply Hold|].
      exists u. split; [done|]. split; [by intros ->|].
      exists stream, []. split; [done|].
      intros it' Hin Hl. apply Hnew. eapply Hall; [done..|by intros ->].
    + intros it0 u0 [Hin| ->%list_elem_of_singleton]%elem_of_app Hl Hne.
      * apply elem_of_union. right. eauto.
      * apply elem_of_union. left. apply elem_of_singleton. congruence.
  - rewrite bool_decide_eq_false_2 by done. simpl.
    repeat split; try done; try apply Hseen.
    intros it0 u0 [Hin| ->%list_elem_of_singleton]%elem_of_app Hl Hne; [eauto|].
    assert (u0 = u) as -> by congruence.
    destruct (decide (u ∈ seen)); [done|]. by destruct Hdup.
Qed.

Lemma foldl_add_item_first_seen items acc stream :
  first_seen acc stream -> first_seen (foldl add_item acc items) (stream ++ items).
Proof.
  revert acc stream. induction items as [|it items IH]; intros acc stream H; simpl.
  - by rewrite app_nil_r.
  - replace (stream ++ it :: items) with ((stream ++ [it]) ++ items)
      by (by rewrite <- app_assoc).
    by apply IH, add_item_first_seen.
Qed.

Lemma returned_items_app f evs evs' :
  returned_items f (evs ++ evs') = returned_items f evs ++ returned_items f evs'.
Proof. unfold returned_items. apply bind_app. Qed.

Lemma page_loop_first_seen fuel f query start_index acc evs :
  first_seen acc (returned_items f evs) ->
  first_seen (page_loop fuel f query start_index acc evs).1
             (returned_items f (page_loop fuel f query start_index acc evs).2).
Proof.
  revert start_index acc evs.
  induction fuel as [|fuel IH]; intros start_index acc evs Hinv; simpl; [done|].
  destruct (start_index <? 100); [|done].
  destruct (stores_count f >=? store_limit f); [done|].
  assert (Hstep : returned_items f (evs ++ [CseList query start_index])
                  = returned_items f evs
                    ++ match cse_list query (cse_id f) start_index with
                       | Results (Some items) => items
                       | _ => []
                       end).
  { rewrite returned_items_app. f_equal. unfold returned_items. simpl.
    by rewrite app_nil_r. }
  destruct (cse_list query (cse_id f) start_index) as [[items|]| |] eqn:Hresp;
    simpl; rewrite ?Hstep, ?app_nil_r; try done.
  assert (first_seen (foldl add_item acc items)
            (returned_items f (evs ++ [CseList query start_index]))) as Hinv'.
  { rewrite Hstep. by apply foldl_add_item_first_seen. }
  destruct (_ <? 10); [done|]. by apply IH.
Qed.

Lemma query_loop_first_seen f queries acc evs :
  first_seen acc (returned_items f evs) ->
  first_seen (query_loop f queries acc evs).1
             (returned_items f (query_loop f queries acc evs).2).
Proof.
  revert acc evs.
  induction queries as [|q queries IH]; intros acc evs Hinv; cbn [query_loop]; [done|].
  destruct (stores_count f >=? store_limit f); [done|].
  pose proof (page_loop_first_seen 100 f q 1 acc evs Hinv) as Hp.
  destruct (page_loop 100 f q 1 acc evs) as [acc' evs']. by apply IH.
Qed.

Lemma first_seen_start f : first_seen (∅, []) (returned_items f []).
Proof.
  repeat split; simpl.
  - intros Hu. by apply not_elem_of_empty in Hu.
  - intros (it & Hin & _). by apply not_elem_of_nil in Hin.
  - apply NoDup_nil_2.
  - intros it Hin. by apply not_elem_of_nil in Hin.
  - intros it u Hin. by apply not_elem_of_nil in Hin.
Qed.

Lemma verified_urls_page_requests query n start :
  verified_urls (page_requests query n start) = [].
Proof. revert start. induction n as [|n IH]; intros start; simpl; [done|apply IH]. Qed.

Lemma query_loop_verified f queries acc evs :
  verified_urls (query_loop f queries acc evs).2 = verified_urls evs.
Proof.
  revert acc evs.
  induction queries as [|q queries IH]; intros acc evs; cbn [query_loop]; [done|].
  destruct (stores_count f >=? store_limit f); [done|].
  destruct (page_loop_requests 100 f q 1 acc evs) as (n & Hev & _).
  destruct (page_loop 100 f q 1 acc evs) as [acc' evs']. simpl in Hev. subst evs'.
  rewrite IH, verified_urls_app, verified_urls_page_requests. apply app_nil_r.
Qed.

Lemma mapM_link_fmap search_results urls :
  mapM link search_results = Some urls -> link <$> search_results = Some <$> urls.
Proof.
  intros H%mapM_Some. induction H as [|it u l k Hl _ IH]; [done|].
  rewrite !fmap_cons. by rewrite Hl, IH.
Qed.

(** C4. In one run of the search no url is handed to [verify_store]
    twice.  The list given to [verify_stores] holds each link once,
    kept with the first item that carried it, whatever query or page
    returned it again; and the urls that are verified are the links
    of that list, taken from its start. *)
Theorem no_url_verified_twice f :
  let '(seen_urls, all_results, evs) := query_loop f search_queries (∅, []) [] in
  let '(r, f', evs') := verify_stores f all_results in
  search_norwegian_shopify f = (r, f', evs ++ evs')
  ∧ NoDup (verified_urls (evs ++ evs'))
  ∧ (∃ urls, link <$> all_results = Some <$> urls
             ∧ NoDup urls
             ∧ verified_urls (evs ++ evs') `prefix_of` urls)
  ∧ first_seen (seen_urls, all_results) (returned_items f evs).
Proof.
  pose proof (query_loop_first_seen f search_queries (∅, []) [] (first_seen_start f)) as Hfs.
  pose proof (query_loop_verified f search_queries (∅, []) []) as Hnov.
  unfold search_norwegian_shopify.
  destruct (query_loop f search_queries (∅, []) []) as [[seen_urls all_results] evs].
  unfold first_seen in Hfs. cbn [fst snd] in Hfs, Hnov.
  destruct Hfs as (Hseen & Hnd & Hfirst & Hall).
  assert (is_Some (mapM link all_results)) as [urls Hurls].
  { apply mapM_is_Some, Forall_forall. intros it Hin.
    destruct (Hfirst it Hin) as (u & Hu & _). simpl. by rewrite Hu. }
  pose proof (verify_stores_verified f all_results urls Hurls) as Hpre.
  pose proof (mapM_link_fmap _ _ Hurls) as Hfm.
  assert (NoDup urls) as Hndu.
  { rewrite Hfm in Hnd. apply (NoDup_fmap_1 Some), Hnd. }
  destruct (verify_stores f all_results) as [[r f'] evs']. simpl in Hpre.
  assert (verified_urls (evs ++ evs') = verified_urls evs') as Heq.
  { by rewrite verified_urls_app, Hnov. }
  split; [done|]. rewrite Heq.
  split.
  { destruct Hpre as [rest ->]. by apply NoDup_app in Hndu as [? _]. }
  split; [by exists urls|].
  unfold first_seen; cbn [fst snd]. done.
Qed.

(** ** The limit on the number of checks *)

(** [max_checks] is carried along and never read by the methods of
    the run. *)
Lemma verify_store_max_checks f m u :
  verify_store (set_max_checks m f) u
  = (let '(r, f', evs) := verify_store f u in (r, set_max_checks m f', evs)).
Proof. unfold verify_store. by destruct (fetch_html u). Qed.

Lemma gather_max_checks f m chunk :
  gather (set_max_checks m f) chunk
  = (let '(rs, f', evs) := gather f chunk in (rs, set_max_checks m f', evs)).
Proof.
  revert f. induction chunk as [|u chunk IH]; intros f; simpl; [done|].
  rewrite verify_store_max_checks.
  destruct (verify_store f u) as [[r f1] e1].
  rewrite IH. by destruct (gather f1 chunk) as [[rs f2] e2].
Qed.

Lemma verify_loop_max_checks idxs urls f m acc evs :
  verify_loop idxs urls (set_max_checks m f) acc evs
  = (let '(l, f', evs') := verify_loop idxs urls f acc evs in
     (l, set_max_checks m f', evs')).
Proof.
  revert f acc evs. induction idxs as [|i idxs IH]; intros f acc evs; simpl; [done|].
  rewrite gather_max_checks.
  destruct (gather f _) as [[results f1] e]. simpl.
  destruct (_ >=? _); [done|]. apply IH.
Qed.

Lemma verify_stores_max_checks f m search_results :
  verify_stores (set_max_checks m f) search_results
  = (let '(r, f', evs) := verify_stores f search_results in
     (r, set_max_checks m f', evs)).
Proof.
  unfold verify_stores. destruct search_results as [|it rest]; [done|].
  destruct (mapM link (it :: rest)) as [urls|]; [|done].
  rewrite verify_loop_max_checks.
  by destruct (verify_loop _ urls f [] []) as [[l f'] evs].
Qed.

Lemma page_loop_max_checks fuel f m query start_index acc evs :
  page_loop fuel (set_max_checks m f) query start_index acc evs
  = page_loop fuel f query start_index acc evs.
Proof.
  revert start_index acc evs.
  induction fuel as [|fuel IH]; intros start_index acc evs; simpl; [done|].
  repeat case_match; try done; apply IH.
Qed.

Lemma query_loop_max_checks f m queries acc evs :
  query_loop (set_max_checks m f) queries acc evs = query_loop f queries acc evs.
Proof.
  revert acc evs. induction queries as [|q queries IH]; intros acc evs; [done|].
  cbn [query_loop]. rewrite page_loop_max_checks.
  change (stores_count (set_max_checks m f)) with (stores_count f).
  change (store_limit (set_max_checks m f)) with (store_limit f).
  destruct (_ >=? _); [done|].
  destruct (page_loop 100 f q 1 acc evs) as [acc' evs']. apply IH.
Qed.

(** C6. No method compares [checked_count] with [max_checks] while
    the run goes on.  With any other value of [max_checks],
    [verify_store], [verify_stores] and the search return the same
    results, send the same requests and count the same urls; every url
    handed to [verify_store] is counted and fetched; and
    [verify_stores] leaves urls unverified only when a batch has
    reached [store_limit].  The field is read by [generate_report]
    alone, for [max_checks_limit] and [max_checks_reached]. *)
Theorem max_checks_never_enforced f m :
  (∀ u, verify_store (set_max_checks m f) u
        = (let '(r, f', evs) := verify_store f u in (r, set_max_checks m f', evs)))
  ∧ (∀ u, checked_count (verify_store f u).1.2 = checked_count f + 1
          ∧ ∃ evs, (verify_store f u).2 = Verifying u :: Get u :: evs)
  ∧ (∀ search_results,
        verify_stores (set_max_checks m f) search_results
        = (let '(r, f', evs) := verify_stores f search_results in
           (r, set_max_checks m f', evs)))
  ∧ (∀ search_results urls,
        mapM link search_results = Some urls ->
        let '(r, f', evs) := verify_stores f search_results in
        checked_count f' = checked_count f + Z.of_nat (length (verified_urls evs))
        ∧ (verified_urls evs = urls
           ∨ ∃ verified_stores,
               store_limit f <= Z.of_nat (length verified_stores)
               ∧ r = Return (slice_to verified_stores (store_limit f))))
  ∧ search_norwegian_shopify (set_max_checks m f)
    = (let '(r, f', evs) := search_norwegian_shopify f in
       (r, set_max_checks m f', evs))
  ∧ max_checks_limit (generate_report f) = max_checks f
  ∧ max_checks_reached (generate_report f) = (checked_count f >=? max_checks f).
Proof.
  split; [intros u; apply verify_store_max_checks|].
  split.
  { intros u. unfold verify_store, fetch_html, ssl_fallback.
    repeat (case_match; simplify_eq/=); eauto. }
  split; [intros sr; apply verify_stores_max_checks|].
  split.
  { intros sr urls Hurls. pose proof (verify_stores_run f sr urls Hurls) as Hrun.
    destruct (verify_stores f sr) as [[r f'] evs]. destruct Hrun as [-> Hend].
    by split. }
  split; [|done].
  unfold search_norwegian_shopify. rewrite query_loop_max_checks.
  destruct (query_loop f search_queries (∅, []) []) as [[seen all_results] evs].
  rewrite verify_stores_max_checks.
  by destruct (verify_stores f all_results) as [[r f'] evs'].
Qed.

(** * Further properties *)

(** ** One verification *)

Lemma fetch_html_Some u html evs :
  fetch_html u = (Some html, evs) ->
  ∃ n v, (n < 3)%nat ∧ (v = u ∨ v = http_url_of u)
         ∧ session_get n v = Status 200 (Some html).
Proof.
  unfold fetch_html, ssl_fallback, body_if_200.
  destruct (session_get 0 u) as [c0 t0| |] eqn:H0.
  - destruct (Z.eqb_spec c0 200) as [->|Hc0]; simpl.
    { intros [= -> _]. exists 0%nat, u. split; [lia|]. split; [by left|done]. }
    destruct ((c0 =? 403) || (c0 =? 401)); [|done].
    destruct (session_get 1 (http_url_of u)) as [c1 t1| |] eqn:H1.
    + destruct (Z.eqb_spec c1 200) as [->|Hc1]; simpl; [|done].
      intros [= -> _]. exists 1%nat, (http_url_of u).
      split; [lia|]. split; [by right|done].
    + destruct (session_get 2 (http_url_of u)) as [c2 t2| |] eqn:H2; try done.
      destruct (Z.eqb_spec c2 200) as [->|Hc2]; simpl; [|done].
      intros [= -> _]. exists 2%nat, (http_url_of u).
      split; [lia|]. split; [by right|done].
    + done.
  - destruct (session_get 1 (http_url_of u)) as [c1 t1| |] eqn:H1; try done.
    destruct (Z.eqb_spec c1 200) as [->|Hc1]; simpl; [|done].
    intros [= -> _]. exists 1%nat, (http_url_of u).
    split; [lia|]. split; [by right|done].
  - done.
Qed.

Lemma classify_Some u html r :
  classify u html = Some r ->
  is_shopify html = true
  ∧ ∃ s, BeautifulSoup html = Some s
         ∧ r = {| url := u;
                  title := default "Unknown" (Str.strip <$> mjoin (soup_title s));
                  description := default "No description" (mjoin (soup_meta_description s));
                  emails := find_emails s html;
                  verified := true;
                  discovery_date := strftime |}.
Proof.
  unfold classify. destruct (is_shopify html); [|done]. simpl.
  unfold extract_store_info.
  destruct (BeautifulSoup html) as [s|]; [|done]. simpl.
  intros Hr. split; [done|]. exists s. split; [done|].
  destruct (soup_title s) as [[t|]|], (soup_meta_description s) as [[d|]|];
    by simplify_eq/=.
Qed.

(** X1. One verification sends between one and three requests: the
    first one to the url itself, the others to the url with its
    [https://] replaced. *)
Theorem verify_store_requests f u :
  ∃ rest, requested_urls (verify_store f u).2 = u :: rest
          ∧ (length rest <= 2)%nat
          ∧ Forall (fun v => v = http_url_of u) rest.
Proof.
  unfold verify_store, fetch_html, ssl_fallback.
  repeat (case_match; simplify_eq/=); eexists; (split; [reflexivity|]);
    split; simpl; try lia; repeat constructor.
Qed.

(** X2. A record is built only from a page that was served with
    status 200, to the url or to its http form, and that holds a
    fingerprint; it carries the url that was given, not the one that
    answered, the flag [verified], the date of the day, and the title,
    description and emails read from that page. *)
Theorem verify_store_record f u r :
  (verify_store f u).1.1 = Some r ->
  ∃ n v html s,
    (n < 3)%nat ∧ (v = u ∨ v = http_url_of u)
    ∧ session_get n v = Status 200 (Some html)
    ∧ is_shopify html = true
    ∧ BeautifulSoup html = Some s
    ∧ url r = u ∧ verified r = true ∧ discovery_date r = strftime
    ∧ title r = default "Unknown" (Str.strip <$> mjoin (soup_title s))
    ∧ description r = default "No description" (mjoin (soup_meta_description s))
    ∧ emails r = find_emails s html.
Proof.
  unfold verify_store. destruct (fetch_html u) as [[html|] evs] eqn:Hf; [|done].
  simpl. intros (Hshop & s & Hs & ->)%classify_Some.
  destruct (fetch_html_Some _ _ _ Hf) as (n & v & Hn & Hv & Hget).
  exists n, v, html, s. by repeat split.
Qed.

(** ** The batch loop *)

Lemma verify_store_Some f u r :
  (verify_store f u).1.1 = Some r -> url r = u ∧ verified r = true.
Proof.
  unfold verify_store. destruct (fetch_html u) as [[html|] evs]; [|done].
  simpl. by intros (_ & s & _ & ->)%classify_Some.
Qed.

Lemma gather_records f chunk :
  url <$> omap id (gather f chunk).1.1 `sublist_of` chunk
  ∧ Forall (fun r => verified r = true) (omap id (gather f chunk).1.1).
Proof.
  revert f. induction chunk as [|u chunk IH]; intros f; simpl.
  { split; [done|constructor]. }
  pose proof (verify_store_Some f u) as Hu.
  destruct (verify_store f u) as [[r f1] e1]. simpl in Hu.
  specialize (IH f1). destruct (gather f1 chunk) as [[rs f2] e2]. simpl in *.
  destruct IH as [Hsub Hver]. destruct r as [r|]; simpl.
  - destruct (Hu r eq_refl) as [<- Hv]. split.
    + by apply sublist_skip.
    + by constructor.
  - split; [by apply sublist_cons|done].
Qed.

Lemma slice_to_sublist {A} (l : list A) n : slice_to l n `sublist_of` l.
Proof. unfold slice_to. destruct (0 <=? n); apply sublist_take. Qed.

Lemma verify_loop_records idxs urls f acc evs :
  url <$> acc `sublist_of` verified_urls evs ->
  Forall (fun r => verified r = true) acc ->
  url <$> (verify_loop idxs urls f acc evs).1.1
    `sublist_of` verified_urls (verify_loop idxs urls f acc evs).2
  ∧ Forall (fun r => verified r = true) (verify_loop idxs urls f acc evs).1.1.
Proof.
  revert f acc evs. induction idxs as [|i idxs IH]; intros f acc evs Hsub Hver; simpl.
  { done. }
  pose proof (gather_records f (take chunk_size (drop i urls))) as [Hs Hv].
  pose proof (gather_verified f (take chunk_size (drop i urls))) as Hg.
  destruct (gather f _) as [[results f1] e]. simpl in Hs, Hv, Hg.
  assert (url <$> acc ++ omap id results `sublist_of` verified_urls (evs ++ e)) as Hsub'.
  { rewrite fmap_app, verified_urls_app, Hg. by apply sublist_app. }
  assert (Forall (fun r => verified r = true) (acc ++ omap id results)) as Hver'.
  { by apply Forall_app. }
  destruct (_ >=? _); simpl.
  - split.
    + etrans; [|exact Hsub']. apply fmap_sublist, slice_to_sublist.
    + unfold slice_to. destruct (0 <=? _); by apply Forall_take.
  - by apply IH.
Qed.

Lemma verify_loop_batches fuel i urls f acc evs :
  ∃ j : nat,
    verified_urls
      (verify_loop (range_from fuel i (length urls) chunk_size) urls f acc evs).2
    = verified_urls evs ++ take (chunk_size * j) (drop i urls)
    ∧ ((0 < fuel)%nat -> (i < length urls)%nat -> (1 <= j)%nat).
Proof.
  revert i f acc evs. induction fuel as [|fuel IH]; intros i f acc evs; simpl.
  { exists O. rewrite ?Nat.mul_0_r, ?take_0, ?app_nil_r. simpl.
    rewrite ?take_0, ?app_nil_r. split; [done|lia]. }
  destruct (Nat.ltb_spec i (length urls)) as [Hlt|Hge]; simpl; cycle 1.
  { exists O. rewrite ?Nat.mul_0_r, ?take_0, ?app_nil_r. simpl.
    rewrite ?take_0, ?app_nil_r. split; [done|lia]. }
  pose proof (gather_verified f (take chunk_size (drop i urls))) as Hg.
  destruct (gather f _) as [[results f1] e]; simpl in Hg.
  destruct (_ >=? _); simpl.
  - exists 1%nat. rewrite ?Nat.mul_1_r, verified_urls_app, Hg. split; [done|lia].
  - destruct (IH (i + chunk_size)%nat f1 (acc ++ omap id results) (evs ++ e))
      as (j & Hj & _).
    exists (S j). split; [|lia].
    rewrite Hj, verified_urls_app, Hg, <- app_assoc. f_equal.
    rewrite <- drop_drop, take_take_drop. f_equal. unfold chunk_size. lia.
Qed.

(** X3. A search result without the key ['link'] makes [verify_stores]
    raise a [KeyError] before anything is verified: no request is
    sent and the finder is left as it was. *)
Theorem verify_stores_missing_link f search_results :
  Exists (fun it => link it = None) search_results ->
  verify_stores f search_results = (Raise "KeyError", f, []).
Proof.
  intros Hex. unfold verify_stores.
  destruct search_results as [|it rest]; [by apply Exists_nil in Hex|].
  by rewrite (mapM_None_2 link (it :: rest) Hex).
Qed.

(** X4. The records that [verify_stores] returns are verified records
    of urls it has checked, in the order of the urls: their urls form
    a subsequence of the urls handed to [verify_store], so there are
    at most as many records as urls counted in [checked_count], and
    distinct urls give records with distinct urls. *)
Theorem verify_stores_records f search_results :
  let '(r, f', evs) := verify_stores f search_results in
  match r with
  | Return l =>
      url <$> l `sublist_of` verified_urls evs
      ∧ Forall (fun s => verified s = true) l
      ∧ Z.of_nat (length l) <= checked_count f' - checked_count f
      ∧ (NoDup (verified_urls evs) -> NoDup (url <$> l))
  | Raise _ => True
  end.
Proof.
  unfold verify_stores. destruct search_results as [|it rest].
  { simpl. repeat split; try done; try constructor. lia. }
  destruct (mapM link (it :: rest)) as [urls|] eqn:Hurls; [|done].
  unfold range.
  pose proof (verify_loop_records (range_from (length urls) 0 (length urls) chunk_size)
                urls f [] [] (sublist_nil_l _) (Forall_nil_2 _)) as [Hsub Hver].
  destruct (verify_loop_run (length urls) 0 urls f [] []) as [k Hk]; [lia|].
  destruct (verify_loop _ urls f [] []) as [[l f'] evs].
  destruct Hk as (Hv & -> & _). simpl in *.
  split; [done|]. split; [done|]. split.
  - apply sublist_length in Hsub. rewrite length_fmap, Hv in Hsub. lia.
  - intros Hnd. by eapply sublist_NoDup.
Qed.

(** X5. Verification stops at the end of a batch only: the urls that
    were checked are the first [5 * j] urls of the list for some [j],
    the whole list when it is shorter, and a list that is not empty
    has its first batch checked whatever [store_limit] is. *)
Theorem verify_stores_whole_batches f search_results urls :
  mapM link search_results = Some urls ->
  ∃ j : nat,
    verified_urls (verify_stores f search_results).2 = take (5 * j) urls
    ∧ (search_results ≠ [] -> (1 <= j)%nat).
Proof.
  intros Hurls. pose proof (length_mapM _ _ _ Hurls) as Hlen.
  unfold verify_stores. destruct search_results as [|it rest].
  { exists O. simpl in *. by injection Hurls as <-. }
  rewrite Hurls. unfold range.
  destruct (verify_loop_batches (length urls) 0 urls f [] []) as (j & Hj & Hone).
  destruct (verify_loop _ urls f [] []) as [[l f'] evs].
  simpl in Hj, Hlen. rewrite drop_0 in Hj.
  exists j. split; [done|]. intros _. apply Hone; lia.
Qed.

(** X6. With a [store_limit] of zero or less the loop still runs its
    first batch: up to five urls are fetched and counted, and the call
    returns after that batch with the records cut by the slice
    [verified_stores[:store_limit]], which is the empty list when
    [store_limit] is zero. *)
Theorem verify_stores_nonpositive_limit f search_results urls :
  store_limit f <= 0 ->
  search_results ≠ [] ->
  mapM link search_results = Some urls ->
  let '(results, f1, e) := gather f (take chunk_size urls) in
  verify_stores f search_results
  = (Return (slice_to (omap id results) (store_limit f)), f1, e)
  ∧ verified_urls e = take chunk_size urls
  ∧ (store_limit f = 0 -> slice_to (omap id results) (store_limit f) = []).
Proof.
  intros Hlim Hne Hurls. unfold verify_stores.
  destruct search_results as [|it rest]; [done|]. rewrite Hurls.
  assert (0 < length urls)%nat as Hlen.
  { apply length_mapM in Hurls. simpl in Hurls. lia. }
  unfold range. destruct (length urls) as [|n] eqn:Hn; [lia|].
  cbn [range_from]. destruct (Nat.ltb_spec 0 (S n)); [|lia].
  cbn [verify_loop]. rewrite drop_0.
  pose proof (gather_verified f (take chunk_size urls)) as Hg.
  pose proof (gather_store_limit f (take chunk_size urls)) as Hl.
  destruct (gather f (take chunk_size urls)) as [[results f1] e].
  simpl in Hg, Hl. rewrite Hl. simpl.
  destruct (Z.geb_spec (Z.of_nat (length (omap id results))) (store_limit f)); [|lia].
  split; [done|]. split; [done|].
  intros ->. by unfold slice_to.
Qed.

(** ** The search as a whole *)

Lemma search_results_links f :
  ∃ urls, mapM link (query_loop f search_queries (∅, []) []).1.2 = Some urls
          ∧ NoDup urls.
Proof.
  pose proof (query_loop_first_seen f search_queries (∅, []) [] (first_seen_start f)) as Hfs.
  destruct (query_loop f search_queries (∅, []) []) as [[seen all_results] evs].
  unfold first_seen in Hfs. cbn [fst snd] in *.
  destruct Hfs as (_ & Hnd & Hfirst & _).
  assert (is_Some (mapM link all_results)) as [urls Hurls].
  { apply mapM_is_Some, Forall_forall. intros it Hin.
    destruct (Hfirst it Hin) as (u & Hu & _). simpl. by rewrite Hu. }
  exists urls. split; [done|].
  rewrite (mapM_link_fmap _ _ Hurls) in Hnd. apply (NoDup_fmap_1 Some), Hnd.
Qed.

Lemma verify_stores_Return f search_results urls :
  mapM link search_results = Some urls ->
  ∃ l f' evs,
    verify_stores f search_results = (Return l, f', evs)
    ∧ url <$> l `sublist_of` verified_urls evs
    ∧ verified_urls evs `prefix_of` urls
    ∧ f' = set_checked_count
             (checked_count f + Z.of_nat (length (verified_urls evs))) f
    ∧ (0 < store_limit f -> Z.of_nat (length l) <= store_limit f).
Proof.
  intros Hurls.
  pose proof (verify_stores_verified f search_results urls Hurls) as Hpre.
  pose proof (verify_stores_run f search_results urls Hurls) as Hrun.
  unfold verify_stores in *. destruct search_results as [|it rest].
  { exists [], f, []. simpl in *. destruct Hrun as [Hf _].
    repeat split; try done. intros; lia. }
  rewrite Hurls in *. unfold range in *.
  pose proof (verify_loop_records (range_from (length urls) 0 (length urls) chunk_size)
                urls f [] [] (sublist_nil_l _) (Forall_nil_2 _)) as [Hsub _].
  pose proof (fun H => verify_loop_bound
                (range_from (length urls) 0 (length urls) chunk_size)
                urls f [] [] H) as Hb.
  destruct (verify_loop _ urls f [] []) as [[l f'] evs]. simpl in *.
  exists l, f', evs. destruct Hrun as [Hf _].
  repeat split; try done. intros Hpos. apply Hb; [done|simpl; lia].
Qed.

Lemma api_requests_app evs evs' :
  api_requests (evs ++ evs') = api_requests evs ++ api_requests evs'.
Proof. apply omap_app. Qed.

Lemma api_requests_verify_store f u : api_requests (verify_store f u).2 = [].
Proof.
  unfold verify_store, fetch_html, ssl_fallback.
  repeat (case_match; simplify_eq/=); done.
Qed.

Lemma api_requests_gather f chunk : api_requests (gather f chunk).2 = [].
Proof.
  revert f. induction chunk as [|u chunk IH]; intros f; simpl; [done|].
  pose proof (api_requests_verify_store f u) as Hv.
  destruct (verify_store f u) as [[r f1] e1]. specialize (IH f1).
  destruct (gather f1 chunk) as [[rs f2] e2]. simpl in *.
  by rewrite api_requests_app, Hv, IH.
Qed.

Lemma api_requests_verify_loop idxs urls f acc evs :
  api_requests (verify_loop idxs urls f acc evs).2 = api_requests evs.
Proof.
  revert f acc evs. induction idxs as [|i idxs IH]; intros f acc evs; simpl; [done|].
  pose proof (api_requests_gather f (take chunk_size (drop i urls))) as Hg.
  destruct (gather f _) as [[results f1] e]. simpl in Hg.
  destruct (_ >=? _); simpl.
  - by rewrite api_requests_app, Hg, app_nil_r.
  - by rewrite IH, api_requests_app, Hg, app_nil_r.
Qed.

Lemma api_requests_verify_stores f search_results :
  api_requests (verify_stores f search_results).2 = [].
Proof.
  unfold verify_stores. destruct search_results as [|it rest]; [done|].
  destruct (mapM link (it :: rest)) as [urls|]; [|done].
  pose proof (api_requests_verify_loop (range 0 (length urls) chunk_size) urls f [] []) as H.
  by destruct (verify_loop _ urls f [] []) as [[l f'] evs].
Qed.

Lemma api_requests_page_requests query n start :
  api_requests (page_requests query n start)
  = (fun k : nat => (query, start + 10 * Z.of_nat k)) <$> seq 0 n.
Proof.
  revert start. induction n as [|n IH]; intros start; [done|].
  cbn [page_requests]. change (api_requests (CseList query start :: ?l))
    with ((query, start) :: api_requests l).
  rewrite IH. cbn [seq fmap list_fmap]. f_equal; [f_equal; lia|].
  rewrite <- fmap_S_seq, <- list_fmap_compose.
  apply list_fmap_ext. intros _ k _. simpl. f_equal. lia.
Qed.

(** The requests of the loop over the queries: for each query at most
    ten, at the indices 1, 11, ..., 91. *)
Lemma query_loop_api_requests f queries acc evs :
  ∃ reqs,
    api_requests (query_loop f queries acc evs).2 = api_requests evs ++ reqs
    ∧ (length reqs <= 10 * length queries)%nat
    ∧ Forall (fun qs : string * Z =>
                qs.1 ∈ queries
                ∧ ∃ k : nat, (k < 10)%nat ∧ qs.2 = 1 + 10 * Z.of_nat k) reqs.
Proof.
  revert acc evs.
  induction queries as [|q queries IH]; intros acc evs; cbn [query_loop].
  { exists []. rewrite app_nil_r. split; [done|]. split; [simpl; lia|constructor]. }
  destruct (stores_count f >=? store_limit f).
  { exists []. rewrite app_nil_r. split; [done|]. split; [simpl; lia|constructor]. }
  destruct (page_loop_requests 100 f q 1 acc evs) as (n & Hev & _ & Hsub & _).
  destruct (page_loop 100 f q 1 acc evs) as [acc' evs']. simpl in Hev. subst evs'.
  destruct (IH acc' (evs ++ page_requests q n 1)) as (reqs & Hreqs & Hlen & Hall).
  assert (n <= 10)%nat as Hn.
  { destruct n as [|n]; [lia|]. specialize (Hsub n). lia. }
  exists (api_requests (page_requests q n 1) ++ reqs).
  split; [by rewrite Hreqs, api_requests_app, app_assoc|].
  rewrite api_requests_page_requests. split.
  - rewrite length_app, length_fmap, length_seq. simpl. lia.
  - apply Forall_app. split.
    + apply Forall_fmap, Forall_forall. intros k Hk%elem_of_seq. simpl.
      split; [left|]. exists k. split; [lia|done].
    + eapply Forall_impl; [exact Hall|]. intros [q' s] [Hq Hs]. simpl in *.
      split; [by right|done].
Qed.

(** X7. A search never raises: every item it has kept carries a link,
    so the [KeyError] of [verify_stores] cannot happen.  It returns
    records with pairwise distinct urls, at most [store_limit] of them
    when the limit is positive. *)
Theorem search_returns_distinct_stores f :
  ∃ l f' evs,
    search_norwegian_shopify f = (Return l, f', evs)
    ∧ NoDup (url <$> l)
    ∧ url <$> l `sublist_of` verified_urls evs
    ∧ (0 < store_limit f -> Z.of_nat (length l) <= store_limit f).
Proof.
  destruct (search_results_links f) as (urls & Hurls & Hnd).
  pose proof (query_loop_verified f search_queries (∅, []) []) as Hnov.
  unfold search_norwegian_shopify.
  destruct (query_loop f search_queries (∅, []) []) as [[seen all_results] evs].
  cbn [fst snd] in *.
  destruct (verify_stores_Return f all_results urls Hurls)
    as (l & f' & evs' & -> & Hsub & Hpre & _ & Hb).
  exists l, f', (evs ++ evs').
  assert (verified_urls (evs ++ evs') = verified_urls evs') as ->.
  { by rewrite verified_urls_app, Hnov. }
  split; [done|]. split; [|by split].
  assert (NoDup (verified_urls evs')) as Hnd'.
  { destruct Hpre as [rest ->]. by apply NoDup_app in Hnd as [? _]. }
  by eapply sublist_NoDup.
Qed.

(** X8. A run sends at most seventy requests to the search API, ten
    for each of the seven queries, each one for a query of the list at
    one of the indices 1, 11, ..., 91; the verification sends none. *)
Theorem search_request_bound f :
  (length (api_requests (search_norwegian_shopify f).2) <= 70)%nat
  ∧ Forall (fun qs : string * Z =>
              qs.1 ∈ search_queries
              ∧ ∃ k : nat, (k < 10)%nat ∧ qs.2 = 1 + 10 * Z.of_nat k)
           (api_requests (search_norwegian_shopify f).2).
Proof.
  unfold search_norwegian_shopify.
  destruct (query_loop_api_requests f search_queries (∅, []) [])
    as (reqs & Hreqs & Hlen & Hall).
  destruct (query_loop f search_queries (∅, []) []) as [[seen all_results] evs].
  pose proof (api_requests_verify_stores f all_results) as Hv.
  destruct (verify_stores f all_results) as [[r f'] evs'].
  cbn [fst snd] in *. rewrite api_requests_app, Hv, app_nil_r, Hreqs. simpl.
  split; [|done]. simpl in Hlen. lia.
Qed.

(** X10. A search writes [checked_count] and no other field of the
    finder: the counter grows by the number of urls handed to
    [verify_store], and [stores_count], which the search compares with
    [store_limit], is never updated, nor is [found_stores]. *)
Theorem search_updates_checked_count_only f :
  let '(r, f', evs) := search_norwegian_shopify f in
  f' = set_checked_count
         (checked_count f + Z.of_nat (length (verified_urls evs))) f
  ∧ stores_count f' = stores_count f
  ∧ found_stores f' = found_stores f
  ∧ store_limit f' = store_limit f.
Proof.
  destruct (search_results_links f) as (urls & Hurls & _).
  pose proof (query_loop_verified f search_queries (∅, []) []) as Hnov.
  unfold search_norwegian_shopify.
  destruct (query_loop f search_queries (∅, []) []) as [[seen all_results] evs].
  cbn [fst snd] in *.
  destruct (verify_stores_Return f all_results urls Hurls)
    as (l & f' & evs' & -> & _ & _ & -> & _).
  by rewrite verified_urls_app, Hnov.
Qed.

Lemma add_item_grows acc it :
  acc.2 `prefix_of` (add_item acc it).2 ∧ acc.1 ⊆ (add_item acc it).1.
Proof.
  clear session_get BeautifulSoup cse_list strftime.
  unfold add_item. destruct (link it) as [u|]; [|done].
  destruct (negb (Str.is_empty u) && bool_decide (u ∉ acc.1)); [|done].
  simpl. split; [by apply prefix_app_r|set_solver].
Qed.

Lemma foldl_add_item_grows items acc :
  acc.2 `prefix_of` (foldl add_item acc items).2
  ∧ acc.1 ⊆ (foldl add_item acc items).1
  ∧ (length (foldl add_item acc items).2 <= length acc.2 + length items)%nat.
Proof.
  revert acc. induction items as [|it items IH]; intros acc; simpl.
  { split; [done|]. split; [done|lia]. }
  destruct (IH (add_item acc it)) as (Hp & Hs & Hl).
  destruct (add_item_grows acc it) as [Hp' Hs'].
  split; [by etrans|]. split; [by etrans|].
  assert (length (add_item acc it).2 <= S (length acc.2))%nat; [|lia].
  unfold add_item. destruct (link it) as [u|]; [|simpl; lia].
  destruct (negb (Str.is_empty u) && bool_decide (u ∉ acc.1)); simpl; [|lia].
  rewrite length_app. simpl. lia.
Qed.

Lemma page_loop_grows fuel f query start_index acc evs :
  acc.2 `prefix_of` (page_loop fuel f query start_index acc evs).1.2
  ∧ acc.1 ⊆ (page_loop fuel f query start_index acc evs).1.1
  ∧ evs `prefix_of` (page_loop fuel f query start_index acc evs).2.
Proof.
  revert start_index acc evs.
  induction fuel as [|fuel IH]; intros start_index acc evs; simpl; [done|].
  destruct (start_index <? 100); [|done].
  destruct (stores_count f >=? store_limit f); [done|].
  assert (evs `prefix_of` evs ++ [CseList query start_index]) as Hevs
    by (by apply prefix_app_r).
  destruct (cse_list query (cse_id f) start_index) as [[items|]| |]; simpl; try done.
  destruct (foldl_add_item_grows items acc) as (Hp & Hs & _).
  destruct (_ <? 10); simpl; [done|].
  destruct (IH (start_index + 10) (foldl add_item acc items)
              (evs ++ [CseList query start_index])) as (Hp' & Hs' & He').
  split; [by etrans|]. split; by etrans.
Qed.

(** X9. What the search has gathered is never dropped: the list
    [all_results] and the set [seen_urls] only grow, by appending,
    through every page and every query, whatever the API answers
    later, errors included; and the trace of requests only grows. *)
Theorem search_results_only_grow f queries acc evs :
  acc.2 `prefix_of` (query_loop f queries acc evs).1.2
  ∧ acc.1 ⊆ (query_loop f queries acc evs).1.1
  ∧ evs `prefix_of` (query_loop f queries acc evs).2
  ∧ ∀ fuel query start_index,
      acc.2 `prefix_of` (page_loop fuel f query start_index acc evs).1.2
      ∧ acc.1 ⊆ (page_loop fuel f query start_index acc evs).1.1.
Proof.
  assert (acc.2 `prefix_of` (query_loop f queries acc evs).1.2
          ∧ acc.1 ⊆ (query_loop f queries acc evs).1.1
          ∧ evs `prefix_of` (query_loop f queries acc evs).2) as H.
  { revert acc evs.
    induction queries as [|q queries IH]; intros acc evs; cbn [query_loop]; [done|].
    destruct (stores_count f >=? store_limit f); [done|].
    destruct (page_loop_grows 100 f q 1 acc evs) as (Hp & Hs & He).
    destruct (page_loop 100 f q 1 acc evs) as [acc' evs'].
    destruct (IH acc' evs') as (Hp' & Hs' & He'). cbn [fst snd] in *.
    split; [by etrans|]. split; by etrans. }
  destruct H as (Hp & Hs & He). repeat split; try done.
  - apply (page_loop_grows fuel f query start_index acc evs).
  - apply (page_loop_grows fuel f query start_index acc evs).
Qed.

Lemma query_loop_asks_each f queries acc evs :
  stores_count f < store_limit f ->
  Forall (fun q => (q, 1) ∈ api_requests (query_loop f queries acc evs).2) queries.
Proof.
  intros Hlim. revert acc evs.
  induction queries as [|q queries IH]; intros acc evs; cbn [query_loop]; [constructor|].
  destruct (Z.geb_spec (stores_count f) (store_limit f)); [lia|].
  destruct (page_loop_requests 100 f q 1 acc evs)
    as (n & Hev & _ & _ & _ & _ & _ & Hfirst).
  destruct (page_loop 100 f q 1 acc evs) as [acc' evs']. simpl in Hev. subst evs'.
  constructor; [|apply IH].
  destruct (query_loop_api_requests f queries acc' (evs ++ page_requests q n 1))
    as (reqs & -> & _).
  destruct n as [|n]; [specialize (Hfirst ltac:(lia) ltac:(lia) Hlim); lia|].
  rewrite api_requests_app. cbn [page_requests].
  apply elem_of_app. left. apply elem_of_app. right. left.
Qed.

(** X11. An error of the search API ends the pagination of its query
    and nothing else: as long as [stores_count] is below
    [store_limit], every query of the list is sent for its first page,
    whatever the queries before it were answered. *)
Theorem every_query_is_asked f :
  stores_count f < store_limit f ->
  Forall (fun q => (q, 1) ∈ api_requests (search_norwegian_shopify f).2)
         search_queries.
Proof.
  intros Hlim. pose proof (query_loop_asks_each f search_queries (∅, []) [] Hlim) as H.
  unfold search_norwegian_shopify.
  destruct (query_loop f search_queries (∅, []) []) as [[seen all_results] evs].
  destruct (verify_stores f all_results) as [[r f'] evs'].
  cbn [fst snd] in *. eapply Forall_impl; [exact H|].
  intros q Hq. rewrite api_requests_app. apply elem_of_app. by left.
Qed.

(** ** The run and its report *)

Lemma search_run f :
  ∃ urls l evs evs',
    search_norwegian_shopify f
    = (Return l,
       set_checked_count
         (checked_count f + Z.of_nat (length (verified_urls (evs ++ evs')))) f,
       evs ++ evs')
    ∧ mapM link (query_loop f search_queries (∅, []) []).1.2 = Some urls
    ∧ verified_urls (evs ++ evs') `prefix_of` urls
    ∧ url <$> l `sublist_of` verified_urls (evs ++ evs')
    ∧ (0 < store_limit f -> Z.of_nat (length l) <= store_limit f).
Proof.
  destruct (search_results_links f) as (urls & Hurls & _).
  pose proof (query_loop_verified f search_queries (∅, []) []) as Hnov.
  unfold search_norwegian_shopify.
  destruct (query_loop f search_queries (∅, []) []) as [[seen all_results] evs].
  cbn [fst snd] in *.
  destruct (verify_stores_Return f all_results urls Hurls)
    as (l & f' & evs' & -> & Hsub & Hpre & -> & Hb).
  exists urls, l, evs, evs'.
  assert (verified_urls (evs ++ evs') = verified_urls evs') as ->.
  { by rewrite verified_urls_app, Hnov. }
  done.
Qed.

(** X12. A run of [main] ends with at most 100 stores, stored in
    [found_stores], and never with more stores than urls checked.
    With no store it writes nothing; otherwise it hands the stores to
    the csv export and then writes a report whose counts are the
    number of stores and the number of urls checked, whose list is
    the stores, and whose [store_limit_reached] says whether there are
    exactly 100 of them. *)
Theorem main_outputs API_KEY CSE_ID :
  ∃ found f outs evs,
    main API_KEY CSE_ID = (Return found, f, outs, evs)
    ∧ found_stores f = found
    ∧ (length found <= 100)%nat
    ∧ checked_count f = Z.of_nat (length (verified_urls evs))
    ∧ (length found <= length (verified_urls evs))%nat
    ∧ match found with
      | [] => outs = []
      | _ =>
          ∃ rep,
            outs = [ToCsv "norwegian_shopify_stores.csv" found;
                    JsonDump "shopify_report.json" rep]
            ∧ total_stores_found rep = Z.of_nat (length found)
            ∧ total_urls_checked rep = Z.of_nat (length (verified_urls evs))
            ∧ stores rep = found
            ∧ store_limit_reached rep = bool_decide (length found = 100%nat)
            ∧ report_store_limit rep = 100
            ∧ max_checks_limit rep = 1000
      end.
Proof.
  unfold main.
  destruct (search_run (init API_KEY CSE_ID 100 1000))
    as (urls & l & evs & evs' & -> & _ & _ & Hsub & Hb).
  specialize (Hb ltac:(simpl; lia)). simpl in Hb.
  apply sublist_length in Hsub. rewrite length_fmap in Hsub.
  eexists l, _, _, (evs ++ evs'). split; [reflexivity|].
  split; [done|]. split; [lia|]. split; [simpl; lia|]. split; [done|].
  destruct l as [|s l]; [done|].
  eexists. split; [reflexivity|]. simpl.
  repeat split; try done.
  destruct (Z.geb_spec (Z.of_nat (S (length l))) 100) as [Hge|Hlt].
  - symmetry. apply bool_decide_eq_true_2. simpl in Hb. lia.
  - symmetry. apply bool_decide_eq_false_2. lia.
Qed.

Lemma page_loop_length fuel f query start_index acc evs (p : nat) :
  pages_of_ten ->
  100 <= start_index + 10 * Z.of_nat p ->
  (length (page_loop fuel f query start_index acc evs).1.2
   <= length acc.2 + 10 * p)%nat.
Proof.
  intros Hten. revert start_index acc evs p.
  induction fuel as [|fuel IH]; intros start_index acc evs p Hp; simpl; [lia|].
  destruct (Z.ltb_spec start_index 100); [|simpl; lia].
  destruct (stores_count f >=? store_limit f); [simpl; lia|].
  destruct (cse_list query (cse_id f) start_index) as [[items|]| |] eqn:Hresp;
    simpl; try lia.
  destruct (foldl_add_item_grows items acc) as (_ & _ & Hl).
  pose proof (Hten _ _ _ _ Hresp) as Hitems.
  destruct p as [|p]; [lia|].
  destruct (_ <? 10); simpl; [lia|].
  specialize (IH (start_index + 10) (foldl add_item acc items)
                (evs ++ [CseList query start_index]) p ltac:(lia)).
  lia.
Qed.

Lemma query_loop_length f queries acc evs :
  pages_of_ten ->
  (length (query_loop f queries acc evs).1.2
   <= length acc.2 + 100 * length queries)%nat.
Proof.
  intros Hten. revert acc evs.
  induction queries as [|q queries IH]; intros acc evs; cbn [query_loop].
  { simpl. lia. }
  destruct (stores_count f >=? store_limit f); [simpl; lia|].
  pose proof (page_loop_length 100 f q 1 acc evs 10 Hten ltac:(lia)) as Hp.
  destruct (page_loop 100 f q 1 acc evs) as [acc' evs'].
  specialize (IH acc' evs'). cbn [fst snd length] in *. lia.
Qed.

(** X13. When the search API returns at most ten items a page, a run
    checks at most 700 urls (seven queries of ten pages of ten), so
    under the limits of [main] the counter never comes up to
    [max_checks] and every report has [max_checks_reached] false. *)
Theorem main_never_reaches_max_checks API_KEY CSE_ID :
  pages_of_ten ->
  let '(r, f, outs, evs) := main API_KEY CSE_ID in
  checked_count f <= 700
  ∧ checked_count f < max_checks f
  ∧ ∀ filename rep, JsonDump filename rep ∈ outs -> max_checks_reached rep = false.
Proof.
  intros Hten. unfold main.
  pose proof (query_loop_length (init API_KEY CSE_ID 100 1000)
                search_queries (∅, []) [] Hten) as Hlen.
  destruct (search_run (init API_KEY CSE_ID 100 1000))
    as (urls & l & evs & evs' & -> & Hurls & Hpre & _ & _).
  apply length_mapM in Hurls. apply prefix_length in Hpre.
  change (length search_queries) with 7%nat in Hlen. cbn [snd length] in Hlen.
  assert (Z.of_nat (length (verified_urls (evs ++ evs'))) <= 700) as Hcc by lia.
  simpl. split; [lia|]. split; [lia|].
  intros filename rep Hin. destruct l as [|s l].
  { by apply not_elem_of_nil in Hin. }
  unfold export_results in Hin. simpl in Hin.
  apply elem_of_cons in Hin as [Hin|Hin]; [done|].
  apply list_elem_of_singleton in Hin. injection Hin as _ ->. simpl.
  destruct (Z.geb_spec (0 + Z.of_nat (length (verified_urls (evs ++ evs')))) 1000); [lia|done].
Qed.

(** ** Strings: addresses, urls and fingerprints *)

Lemma take_append_length (w rest : string) :
  Str.take (String.length w) (w +:+ rest) = w.
Proof.
  induction w as [|c w IH]; str_simpl.
  - by destruct rest.
  - by rewrite IH.
Qed.

Lemma findall_from_found r skip s m :
  m ∈ Re.findall_from r skip s -> Re.lang r m ∧ Re.occurs_in m s.
Proof.
  revert skip. induction s as [|c s IH]; intros skip.
  - destruct skip as [|k]; simpl; [|by intros ?%not_elem_of_nil].
    destruct (Re.match_here r EmptyString) as [n|] eqn:Hm;
      [|by intros ?%not_elem_of_nil].
    intros ->%list_elem_of_singleton.
    destruct (match_here_sound _ _ _ Hm) as (w & rest & Hs & <- & Hl).
    rewrite Hs, take_append_length. split; [done|]. by exists EmptyString, rest.
  - assert (Hlater : ∀ k, m ∈ Re.findall_from r k s ->
                          Re.lang r m ∧ Re.occurs_in m (String c s)).
    { intros k (Hl & pre & post & ->)%IH. split; [done|].
      by exists (String c pre), post. }
    destruct skip as [|k]; simpl; [|by apply Hlater].
    destruct (Re.match_here r (String c s)) as [n|] eqn:Hm; [|by apply Hlater].
    intros [->|Hin]%elem_of_cons; [|by eapply Hlater].
    destruct (match_here_sound _ _ _ Hm) as (w & rest & Hs & <- & Hl).
    rewrite Hs, take_append_length. split; [done|]. by exists EmptyString, rest.
Qed.

Lemma lang_email_pattern m :
  Re.lang email_pattern m ->
  ∃ local domain tld,
    m = local +:+ "@" +:+ domain +:+ "." +:+ tld
    ∧ Re.all_of email_local local = true ∧ (1 <= String.length local)%nat
    ∧ Re.all_of email_domain domain = true ∧ (1 <= String.length domain)%nat
    ∧ Re.all_of Str.is_alpha tld = true ∧ (2 <= String.length tld)%nat.
Proof.
  unfold email_pattern, Re.lit.
  inversion 1 as [| |n1 p1 r1 local w1 Hlocal Hn1 H1]; subst.
  inversion H1 as [|p2 r2 c2 w2 Hc2 H2|]; subst.
  apply bool_decide_eq_true_1 in Hc2 as ->.
  inversion H2 as [| |n3 p3 r3 domain w3 Hdomain Hn3 H3]; subst.
  inversion H3 as [|p4 r4 c4 w4 Hc4 H4|]; subst.
  apply bool_decide_eq_true_1 in Hc4 as ->.
  inversion H4 as [| |n5 p5 r5 tld w5 Htld Hn5 H5]; subst.
  inversion H5; subst.
  exists local, domain, tld. repeat split; try done.
  do 2 f_equal. str_simpl. do 2 f_equal.
  clear. induction tld as [|c t IH]; str_simpl; [done|]. by rewrite IH.
Qed.

(** X14. Every address that [findall] takes from the html is a piece
    of the html of the shape [local@domain.tld]: a local part of one
    or more of the characters [a-zA-Z0-9._%+-], a domain of one or
    more of [a-zA-Z0-9.-], and an ending of two letters or more. *)
Theorem found_emails_shape html m :
  m ∈ Re.findall email_pattern html ->
  Re.occurs_in m html
  ∧ ∃ local domain tld,
      m = local +:+ "@" +:+ domain +:+ "." +:+ tld
      ∧ Re.all_of email_local local = true ∧ (1 <= String.length local)%nat
      ∧ Re.all_of email_domain domain = true ∧ (1 <= String.length domain)%nat
      ∧ Re.all_of Str.is_alpha tld = true ∧ (2 <= String.length tld)%nat.
Proof.
  intros [Hl Hocc]%findall_from_found. split; [done|]. by apply lang_email_pattern.
Qed.

Lemma has_char_split_head sep s : has_char sep (Str.split_head sep s) = false.
Proof.
  induction s as [|c s IH]; simpl; [done|].
  destruct (decide (c = sep)) as [->|Hne]; simpl; [done|].
  by rewrite bool_decide_eq_false_2, IH.
Qed.

Lemma has_char_lstrip c s : has_char c s = false -> has_char c (Str.lstrip s) = false.
Proof.
  induction s as [|x s IH]; simpl; [done|].
  intros [Hx Hs]%orb_false_iff. destruct (Str.is_space x); [by apply IH|].
  simpl. by rewrite Hx, Hs.
Qed.

Lemma has_char_rstrip c s : has_char c s = false -> has_char c (Str.rstrip s) = false.
Proof.
  induction s as [|x s IH]; simpl; [done|].
  intros [Hx Hs]%orb_false_iff. specialize (IH Hs).
  destruct (Str.rstrip s) as [|y t].
  - destruct (Str.is_space x); simpl; [done|]. by rewrite Hx.
  - change (has_char c (String x (String y t)))
      with (bool_decide (x = c) || has_char c (String y t)).
    by rewrite Hx, IH.
Qed.

Lemma lstrip_no_space s :
  match Str.lstrip s with
  | String c _ => Str.is_space c = false
  | EmptyString => True
  end.
Proof.
  induction s as [|x s IH]; simpl; [done|].
  by destruct (Str.is_space x) eqn:Hx.
Qed.

Lemma rstrip_head s :
  match s with
  | String c _ =>
      Str.is_space c = false ->
      match Str.rstrip s with String c' _ => c' = c | EmptyString => False end
  | EmptyString => True
  end.
Proof.
  destruct s as [|c s]; simpl; [done|]. intros Hc.
  destruct (Str.rstrip s); [by rewrite Hc|done].
Qed.

(** X15. The address taken from a mailto link holds no question mark:
    the link is cut at its first one, so the query of the link never
    gets into the address; and the address does not start with a white
    space. *)
Theorem mailto_email_no_query href :
  has_char "?" (mailto_email href) = false
  ∧ match mailto_email href with
    | String c _ => Str.is_space c = false
    | EmptyString => True
    end.
Proof.
  unfold mailto_email, Str.strip. split.
  - apply has_char_rstrip, has_char_lstrip, has_char_split_head.
  - pose proof (lstrip_no_space
                  (Str.split_head "?" (Str.replace href "mailto:" EmptyString))) as Hl.
    pose proof (rstrip_head
                  (Str.lstrip (Str.split_head "?" (Str.replace href "mailto:" EmptyString))))
      as Hr.
    destruct (Str.lstrip _) as [|c s]; [done|].
    specialize (Hr Hl). by destruct (Str.rstrip (String c s)) as [|c' s']; [|subst].
Qed.

Lemma startswith_spec p s :
  Str.startswith p s = true -> ∃ post, s = p +:+ post.
Proof.
  revert s. induction p as [|a p IH]; intros s; simpl.
  - intros _. by exists s.
  - destruct s as [|b s]; [done|].
    destruct (decide (a = b)) as [->|]; [|done].
    intros [post ->]%IH. by exists post.
Qed.

Lemma replace_from_no_occurrence old new s :
  ¬ Re.occurs_in old s -> Str.replace_from old new 0 s = s.
Proof.
  induction s as [|c s IH]; intros Hno; simpl; [done|].
  destruct (Str.startswith old (String c s)) eqn:Hst.
  - exfalso. apply Hno. apply startswith_spec in Hst as [post Hpost].
    by exists EmptyString, post.
  - f_equal. apply IH. intros (pre & post & ->). apply Hno.
    by exists (String c pre), post.
Qed.

(** X16. The http form of a url: a url in which [https://] does not
    occur is its own http form, so the retry after a 401 or a 403 on
    such a url asks the same url again; and a url that starts with
    [https://] and has no other one gets [http://] in its place and
    is otherwise unchanged. *)
Theorem http_url_of_scheme rest :
  ¬ Re.occurs_in "https://" rest ->
  http_url_of rest = rest
  ∧ http_url_of ("https://" +:+ rest) = "http://" +:+ rest.
Proof.
  intros Hno. unfold http_url_of, Str.replace.
  rewrite (replace_from_no_occurrence _ _ _ Hno). split; [done|].
  str_simpl. by rewrite (replace_from_no_occurrence _ _ _ Hno).
Qed.




Lemma lang_literal w : Re.lang (Re.literal w) w.
Proof.
  induction w as [|c w IH]; simpl; [constructor|].
  constructor; [by apply bool_decide_eq_true_2|done].
Qed.

Lemma not_occurs_by_search old s :
  Re.search (Re.literal old) s = false -> ¬ Re.occurs_in old s.
Proof.
  intros Hs Hocc. assert (Re.search (Re.literal old) s = true) as Ht.
  { apply search_spec. exists old. split; [apply lang_literal|done]. }
  congruence.
Qed.

Lemma query_loop_requests_nodup f queries acc evs :
  NoDup queries ->
  ∃ reqs,
    api_requests (query_loop f queries acc evs).2 = api_requests evs ++ reqs
    ∧ NoDup reqs
    ∧ Forall (fun qs : string * Z => qs.1 ∈ queries) reqs.
Proof.
  intros Hnd. revert acc evs.
  induction Hnd as [|q queries Hq Hnd IH]; intros acc evs; cbn [query_loop].
  { exists []. rewrite app_nil_r. split; [done|]. split; constructor. }
  destruct (stores_count f >=? store_limit f).
  { exists []. rewrite app_nil_r. split; [done|]. split; constructor. }
  destruct (page_loop_requests 100 f q 1 acc evs) as (n & Hev & _).
  destruct (page_loop 100 f q 1 acc evs) as [acc' evs']. simpl in Hev. subst evs'.
  destruct (IH acc' (evs ++ page_requests q n 1)) as (reqs & Hreqs & Hndr & Hall).
  exists (api_requests (page_requests q n 1) ++ reqs).
  split; [by rewrite Hreqs, api_requests_app, app_assoc|].
  rewrite api_requests_page_requests. split.
  - apply NoDup_app. split; [|split; [|done]].
    + apply NoDup_fmap_2; [|apply NoDup_seq].
      intros k1 k2 [= Hk]. lia.
    + intros qs (k & -> & _)%list_elem_of_fmap Hin.
      rewrite Forall_forall in Hall. by apply Hall in Hin.
  - apply Forall_app. split.
    + apply Forall_fmap, Forall_forall. intros k _. simpl. by left.
    + eapply Forall_impl; [exact Hall|]. intros qs Hqs. by right.
Qed.

(** X18. A run never sends the same request to the search API twice:
    the pairs of a query and a start index that are asked are
    pairwise distinct. *)
Theorem search_requests_distinct f :
  NoDup (api_requests (search_norwegian_shopify f).2).
Proof.
  assert (NoDup search_queries) as Hnd.
  { apply (bool_decide_unpack _). by vm_compute. }
  unfold search_norwegian_shopify.
  destruct (query_loop_requests_nodup f search_queries (∅, []) [] Hnd)
    as (reqs & Hreqs & Hndr & _).
  destruct (query_loop f search_queries (∅, []) []) as [[seen all_results] evs].
  pose proof (api_requests_verify_stores f all_results) as Hv.
  destruct (verify_stores f all_results) as [[r f'] evs'].
  cbn [fst snd] in *. by rewrite api_requests_app, Hv, app_nil_r, Hreqs.
Qed.

End Methods.

(** * The scenarios, on concrete sites *)

(** [store_limit = 1] and a batch of five pages that all verify: the
    five are fetched and counted, and one record is returned. *)
Example store_limit_one_batch_of_five :
  match verify_stores site_ok parse_scenario today finder_1 five_results with
  | (Return l, f', evs) =>
      length l = 1%nat ∧ checked_count f' = 5 ∧ length (verified_urls evs) = 5%nat
  | _ => False
  end.
Proof. by vm_compute. Qed.


Lemma search_stops_at_store_limit_witness :
  store_limit finder_0 <= stores_count finder_0
  ∧ search_norwegian_shopify site_ok parse_scenario cse_seven today finder_0
    = (Return [], finder_0, []).
Proof.
  split; [simpl; lia|].
  apply (search_stops_at_store_limit site_ok parse_scenario cse_seven today finder_0).
  simpl; lia.
Defined.

(** One page of seven items: one request, and the seven links kept. *)
Example seven_items_one_request :
  (page_loop cse_seven 100 finder_100 "site:.no vipps shopify" 1 (∅, []) []).2
  = [CseList "site:.no vipps shopify" 1]
  ∧ (page_loop cse_seven 100 finder_100 "site:.no vipps shopify" 1 (∅, []) []).1.2
    = seven_items.
Proof. by vm_compute. Qed.

(** A 403 over https, then the page over http. *)
Example denied_over_https_served_over_http :
  verify_store site_403_then_ok parse_scenario today finder_100 "https://butikk.no/"
  = (Some {| url := "https://butikk.no/"; title := "Unknown";
             description := "No description"; emails := []; verified := true;
             discovery_date := today |},
     set_checked_count 1 finder_100,
     [Verifying "https://butikk.no/"; Get "https://butikk.no/"; Get "http://butikk.no/"]).
Proof. by vm_compute. Qed.

(** The same seven items under each of the seven queries: seven
    requests, and each url verified once. *)
Example overlapping_queries_deduplicated :
  match search_norwegian_shopify site_ok parse_scenario cse_seven today finder_100 with
  | (Return l, f', evs) =>
      length l = 7%nat ∧ checked_count f' = 7
      ∧ verified_urls evs = omap link seven_items
      ∧ length evs = (7 + 7 * 2)%nat
  | _ => False
  end.
Proof. by vm_compute. Qed.

(** C3, as stated, fails where the retry itself ends in a failed
    handshake: the handler of the TLS failure sends a further request
    to the http url, two retries after the 403; and when that request
    is answered with a 200 its body is used, although the first retry
    returned no 200. *)
Lemma retry_failing_on_tls_is_retried :
  site_403_bad_redirect 0 "https://butikk.no/" = Status 403 None
  ∧ fetch_html site_403_bad_redirect "https://butikk.no/"
    = (None, [Get "https://butikk.no/"; Get "http://butikk.no/"; Get "http://butikk.no/"])
  ∧ fetch_spec site_403_bad_redirect "https://butikk.no/"
    = (None, [Get "https://butikk.no/"; Get "http://butikk.no/"])
  ∧ site_403_then_tls 0 "https://butikk.no/" = Status 403 None
  ∧ body_if_200 (site_403_then_tls 1 (http_url_of "https://butikk.no/")) = None
  ∧ fetch_html site_403_then_tls "https://butikk.no/"
    = (Some cdn_body,
       [Get "https://butikk.no/"; Get "http://butikk.no/"; Get "http://butikk.no/"])
  ∧ fetch_html site_403_then_tls "https://butikk.no/"
    ≠ fetch_spec site_403_then_tls "https://butikk.no/"
  ∧ is_Some
      (verify_store site_403_then_tls parse_scenario today finder_100
         "https://butikk.no/").1.1.
Proof.
  split; [by vm_compute|]. split; [by vm_compute|]. split; [by vm_compute|].
  split; [done|]. split; [done|]. split; [by vm_compute|].
  split; [by vm_compute|]. vm_compute. eauto.
Qed.

(** A page with the fingerprint [cdn.shopify.com] and an empty title
    element. *)
Lemma fingerprint_page_without_result_witness :
  site_empty_title 0 "https://butikk.no/" = Status 200 (Some empty_title_body)
  ∧ is_shopify empty_title_body = true
  ∧ parse_scenario empty_title_body = Some empty_title_soup
  ∧ soup_title empty_title_soup = Some None
  ∧ (verify_store site_empty_title parse_scenario today finder_100
       "https://butikk.no/").1.1 = None.
Proof.
  split; [reflexivity|]. split; [by vm_compute|]. split; [reflexivity|].
  split; [reflexivity|].
  apply (fingerprint_page_without_result site_empty_title parse_scenario today
           finder_100 "https://butikk.no/" empty_title_body empty_title_soup).
  - reflexivity.
  - by vm_compute.
  - reflexivity.
  - reflexivity.
Defined.

(** Two pages with a fingerprint, one with an empty title element and
    one with a description element without content: fetched with
    status 200, and no record. *)
Lemma incomplete_elements_give_no_record_witness :
  is_shopify empty_title_body = true
  ∧ parse_scenario empty_title_body = Some empty_title_soup
  ∧ (soup_title empty_title_soup = Some None
     ∨ soup_meta_description empty_title_soup = Some None)
  ∧ extract_store_info parse_scenario today "https://butikk.no/" empty_title_body = None
  ∧ classify parse_scenario today "https://butikk.no/" empty_title_body = None.
Proof.
  split; [by vm_compute|]. split; [reflexivity|]. split; [by left|].
  apply (incomplete_elements_give_no_record parse_scenario today
           "https://butikk.no/" empty_title_body empty_title_soup).
  - reflexivity.
  - by left.
Defined.

Example description_without_content :
  is_shopify bare_meta_body = true
  ∧ verify_store site_bare_meta parse_scenario today finder_100 "https://butikk.no/"
    = (None, set_checked_count 1 finder_100,
       [Verifying "https://butikk.no/"; Get "https://butikk.no/"]).
Proof. by vm_compute. Qed.

(** * Further scenarios *)

Lemma verify_store_record_witness :
  (verify_store site_403_then_ok parse_scenario today finder_100
     "https://butikk.no/").1.1
  = Some {| url := "https://butikk.no/"; title := "Unknown";
            description := "No description"; emails := []; verified := true;
            discovery_date := today |}
  ∧ ∃ n v html s,
      (n < 3)%nat ∧ (v = "https://butikk.no/" ∨ v = http_url_of "https://butikk.no/")
      ∧ site_403_then_ok n v = Status 200 (Some html)
      ∧ is_shopify html = true
      ∧ parse_scenario html = Some s.
Proof.
  assert ((verify_store site_403_then_ok parse_scenario today finder_100
             "https://butikk.no/").1.1
          = Some {| url := "https://butikk.no/"; title := "Unknown";
                    description := "No description"; emails := [];
                    verified := true; discovery_date := today |}) as H
    by (by vm_compute).
  split; [done|].
  destruct (verify_store_record site_403_then_ok parse_scenario today finder_100
              "https://butikk.no/" _ H) as (n & v & html & s & H1 & H2 & H3 & H4 & H5 & _).
  by exists n, v, html, s.
Defined.

Lemma verify_stores_missing_link_witness :
  Exists (fun it => link it = None)
         (five_results ++ [{| link := None; item_title := "no link";
                              snippet := EmptyString |}])
  ∧ verify_stores site_ok parse_scenario today finder_100
      (five_results ++ [{| link := None; item_title := "no link";
                           snippet := EmptyString |}])
    = (Raise "KeyError", finder_100, []).
Proof.
  assert (Exists (fun it => link it = None)
            (five_results ++ [{| link := None; item_title := "no link";
                                 snippet := EmptyString |}])) as H.
  { apply Exists_app. right. by left. }
  split; [done|].
  by apply (verify_stores_missing_link site_ok parse_scenario today finder_100).
Defined.

Lemma verify_stores_whole_batches_witness :
  mapM link seven_items = Some (omap link seven_items)
  ∧ ∃ j : nat,
      verified_urls (verify_stores site_ok parse_scenario today finder_1 seven_items).2
      = take (5 * j) (omap link seven_items)
      ∧ (seven_items ≠ [] -> (1 <= j)%nat).
Proof.
  split; [reflexivity|].
  apply (verify_stores_whole_batches site_ok parse_scenario today finder_1
           seven_items (omap link seven_items)).
  reflexivity.
Defined.

Lemma verify_stores_nonpositive_limit_witness :
  store_limit finder_0 <= 0
  ∧ five_results ≠ []
  ∧ mapM link five_results = Some (omap link five_results)
  ∧ verify_stores site_ok parse_scenario today finder_0 five_results
    = (Return [], set_checked_count 5 finder_0,
       (gather site_ok parse_scenario today finder_0 (omap link five_results)).2).
Proof.
  split; [simpl; lia|]. split; [done|]. split; [reflexivity|].
  pose proof (verify_stores_nonpositive_limit site_ok parse_scenario today
                finder_0 five_results (omap link five_results)
                ltac:(simpl; lia) ltac:(done) eq_refl) as H.
  vm_compute in H. destruct H as [H _]. vm_compute. exact H.
Defined.

Lemma every_query_is_asked_witness :
  stores_count finder_100 < store_limit finder_100
  ∧ Forall (fun q =>
              (q, 1) ∈ api_requests
                         (search_norwegian_shopify site_ok parse_scenario cse_seven
                            today finder_100).2)
           search_queries.
Proof.
  split; [simpl; lia|].
  apply (every_query_is_asked site_ok parse_scenario cse_seven today finder_100).
  simpl; lia.
Defined.

Lemma main_never_reaches_max_checks_witness :
  pages_of_ten cse_seven
  ∧ let '(r, f, outs, evs) := main site_ok parse_scenario cse_seven today "key" "cx" in
    checked_count f <= 700
    ∧ checked_count f < max_checks f
    ∧ ∀ filename rep, JsonDump filename rep ∈ outs -> max_checks_reached rep = false.
Proof.
  assert (pages_of_ten cse_seven) as H.
  { intros query cx start items [= <-]. simpl. lia. }
  split; [done|].
  by apply (main_never_reaches_max_checks site_ok parse_scenario cse_seven today
              "key" "cx").
Defined.

Lemma found_emails_shape_witness :
  "sales@x.no" ∈ Re.findall email_pattern mail_body
  ∧ Re.occurs_in "sales@x.no" mail_body
  ∧ ∃ local domain tld,
      "sales@x.no" = local +:+ "@" +:+ domain +:+ "." +:+ tld
      ∧ Re.all_of email_local local = true ∧ (1 <= String.length local)%nat
      ∧ Re.all_of email_domain domain = true ∧ (1 <= String.length domain)%nat
      ∧ Re.all_of Str.is_alpha tld = true ∧ (2 <= String.length tld)%nat.
Proof.
  assert ("sales@x.no" ∈ Re.findall email_pattern mail_body) as H.
  { apply (bool_decide_unpack _). by vm_compute. }
  split; [done|]. by apply (found_emails_shape mail_body).
Defined.

Lemma http_url_of_scheme_witness :
  ¬ Re.occurs_in "https://" "butikk.no/"
  ∧ http_url_of "butikk.no/" = "butikk.no/"
  ∧ http_url_of ("https://" +:+ "butikk.no/") = "http://" +:+ "butikk.no/".
Proof.
  assert (¬ Re.occurs_in "https://" "butikk.no/") as H.
  { apply not_occurs_by_search. by vm_compute. }
  split; [done|]. by apply http_url_of_scheme.
Defined.
